(** * bin-diff test program: a shallow embedding and its verification

    The program under study is the small C++ demo shipped with bin-diff
    ([test-program/]): [math_utils.cpp], [string_utils.cpp], [logger.cpp]
    and the driver [main.cpp].

    Conventions of the embedding.
    - [int] is a 32-bit and [long long] a 64-bit two's complement integer,
      [size_t] a 64-bit unsigned integer; a machine integer is a [Z] and
      every operation that can leave the range has its wrap-around written
      out ([wrap_int], [wrap_llong], [wrap_size]).
    - [double] is IEEE 754 binary64, taken from the standard library's
      executable specification [SpecFloat] with [prec = 53], [emax = 1024];
      conversions and division round to nearest, ties to even, and every
      operation is rounded to binary64 (no extended precision).
    - [std::string] is a list of 8-bit characters; [std::vector<int>] is a
      list of [Z] whose elements satisfy [int_range].
    - standard output is the text written so far; a function that prints
      takes the text and returns the extended text. *)

From Stdlib Require Import ZArith List Lia Bool Ascii SpecFloat.
From Stdlib Require Import Permutation Sorted.
From Stdlib Require String DecimalString.
Import String.StringSyntax.
From Equations Require Import Equations.
Import ListNotations.
Open Scope Z_scope.

(** * Part I: the embedding *)

(** ** Machine integers *)

Definition INT_MIN : Z := - 2 ^ 31.
Definition INT_MAX : Z := 2 ^ 31 - 1.

Definition int_range (z : Z) : Prop := INT_MIN <= z <= INT_MAX.

Definition in_int_range (z : Z) : bool := (INT_MIN <=? z) && (z <=? INT_MAX).

(** Reduction of a mathematical integer to the signed [bits]-bit range. *)
Definition wrap_signed (bits z : Z) : Z :=
  (z + 2 ^ (bits - 1)) mod 2 ^ bits - 2 ^ (bits - 1).

Definition wrap_int (z : Z) : Z := wrap_signed 32 z.
Definition wrap_llong (z : Z) : Z := wrap_signed 64 z.

Definition npos : Z := 2 ^ 64 - 1.
Definition wrap_size (z : Z) : Z := z mod 2 ^ 64.

(** ** IEEE 754 binary64 *)

Definition prec : Z := 53.
Definition emax : Z := 1024.

Definition double : Type := spec_float.

(** Conversion of an integer ([int], [long long], [size_t]) to [double]. *)
Definition double_of_Z (z : Z) : double := binary_normalize prec emax z 0 false.

Definition double_div (x y : double) : double := SFdiv prec emax x y.

Definition double_zero : double := S754_zero false.

(** ** math_utils.h / math_utils.cpp *)

Record Stats : Type := mkStats { mean : double; min : double; max : double }.

Definition add (a b : Z) : Z := wrap_int (a + b).

Definition multiply (a b : Z) : Z := wrap_int (a * b).

(** State of the loop of [compute_stats]: [sum], [minVal], [maxVal]. *)
Definition stats_step (acc : Z * Z * Z) (v : Z) : Z * Z * Z :=
  let '(sum, minVal, maxVal) := acc in
  (wrap_llong (sum + v),
   if v <? minVal then v else minVal,
   if v >? maxVal then v else maxVal).

Definition compute_stats (values : list Z) : Stats :=
  match values with
  | [] => mkStats double_zero double_zero double_zero
  | _ :: _ =>
      let '(sum, minVal, maxVal) :=
        fold_left stats_step values (0, INT_MAX, INT_MIN) in
      mkStats (double_div (double_of_Z sum)
                          (double_of_Z (Z.of_nat (length values))))
              (double_of_Z minVal)
              (double_of_Z maxVal)
  end.

(** [values[i]]; the loop below only reads inside the vector. *)
Definition vector_at (values : list Z) (i : nat) : Z := nth i values 0.

(** The [for] loop of [is_strictly_increasing], entered with [i = 2]. *)
Equations? increasing_from (values : list Z) (i : nat) : bool
  by wf (length values - i)%nat lt :=
  increasing_from values i with lt_dec i (length values) := {
    | left _ =>
        if vector_at values i <=? vector_at values (i - 1)
        then false
        else increasing_from values (S i);
    | right _ => true }.
Proof. lia. Qed.

Definition is_strictly_increasing (values : list Z) : bool :=
  if (length values <=? 1)%nat then true else increasing_from values 2.

(** ** Exceptions

    [std::stoi], [std::string::substr] and [std::string::compare] report
    failure by throwing; a computation that may throw returns a [result]. *)

Inductive exception : Type := invalid_argument | out_of_range.

Inductive result (A : Type) : Type :=
| ok (a : A)
| throw (e : exception).

Arguments ok {A} a.
Arguments throw {A} e.

Definition bind {A B : Type} (r : result A) (k : A -> result B) : result B :=
  match r with
  | ok a => k a
  | throw e => throw e
  end.

Notation "x <- r ;; k" := (bind r (fun x => k))
  (at level 61, r at next level, right associativity).

(** ** std::string *)

Definition std_string : Type := list ascii.

Definition lit (s : String.string) : std_string := String.list_ascii_of_string s.

Arguments lit s%_string_scope.

Definition size (s : std_string) : Z := Z.of_nat (length s).

(** The value of a character as [unsigned char], and the narrowing of an
    [int] back to a character. *)
Definition uchar (c : ascii) : Z := Z.of_N (N_of_ascii c).
Definition to_char (z : Z) : ascii := ascii_of_N (Z.to_N (z mod 256)).

Definition char_in (c : ascii) (chars : std_string) : bool :=
  existsb (Ascii.eqb c) chars.

(** [find_first_not_of]: forward scan from position [pos]. *)
Fixpoint find_first_not_of_from (s chars : std_string) (pos : Z) : Z :=
  match s with
  | [] => npos
  | c :: rest =>
      if char_in c chars then find_first_not_of_from rest chars (pos + 1)
      else pos
  end.

Definition find_first_not_of (s chars : std_string) : Z :=
  find_first_not_of_from s chars 0.

(** [find_last_not_of]: backward scan; [rs] is the part of the string not
    yet visited, last character first, and [pos] the index of its head. *)
Fixpoint find_last_not_of_from (rs chars : std_string) (pos : Z) : Z :=
  match rs with
  | [] => npos
  | c :: rest =>
      if char_in c chars then find_last_not_of_from rest chars (pos - 1)
      else pos
  end.

Definition find_last_not_of (s chars : std_string) : Z :=
  find_last_not_of_from (rev s) chars (size s - 1).

(** [s.substr(pos, count)]: throws when [pos > size()], otherwise the
    characters from [pos] on, at most [count] of them. *)
Definition substr (s : std_string) (pos count : Z) : result std_string :=
  if pos >? size s then throw out_of_range
  else ok (firstn (Z.to_nat (Z.min count (size s - pos)))
                  (skipn (Z.to_nat pos) s)).

(** Three-way comparison of two strings: characters compared as
    [unsigned char], a proper prefix is smaller.  Only the sign of the
    result is specified by the standard. *)
Fixpoint compare_strings (a b : std_string) : Z :=
  match a, b with
  | [], [] => 0
  | [], _ :: _ => -1
  | _ :: _, [] => 1
  | x :: a', y :: b' =>
      if uchar x <? uchar y then -1
      else if uchar y <? uchar x then 1
      else compare_strings a' b'
  end.

(** [s.compare(pos, len, str)]. *)
Definition compare (s : std_string) (pos len : Z) (str : std_string) : result Z :=
  sub <- substr s pos len ;; ok (compare_strings sub str).

(** ** <cctype> in the "C" locale, the locale of a program that never
    calls [setlocale] *)

Definition islower (c : Z) : bool := (97 <=? c) && (c <=? 122).
Definition isupper (c : Z) : bool := (65 <=? c) && (c <=? 90).
Definition isalpha (c : Z) : bool := isupper c || islower c.
Definition isdigit (c : Z) : bool := (48 <=? c) && (c <=? 57).
Definition isspace (c : Z) : bool := (c =? 32) || ((9 <=? c) && (c <=? 13)).

Definition toupper (c : Z) : Z := if islower c then c - 32 else c.
Definition tolower (c : Z) : Z := if isupper c then c + 32 else c.

(** ** string_utils.cpp *)

Definition to_upper (input : std_string) : std_string :=
  map (fun c => to_char (toupper (uchar c))) input.

Definition to_lower (input : std_string) : std_string :=
  map (fun c => to_char (tolower (uchar c))) input.

(** The literal [" \t\n\r"]. *)
Definition whitespace : std_string :=
  [" "%char; "009"%char; "010"%char; "013"%char].

Definition trim (input : std_string) : result std_string :=
  let start := find_first_not_of input whitespace in
  if start =? npos then ok []
  else
    let end_ := find_last_not_of input whitespace in
    substr input start (wrap_size (end_ - start + 1)).

Definition starts_with (str prefix : std_string) : result bool :=
  if size prefix >? size str then ok false
  else c <- compare str 0 (size prefix) prefix ;; ok (c =? 0).

Definition ends_with (str suffix : std_string) : result bool :=
  if size suffix >? size str then ok false
  else
    c <- compare str (wrap_size (size str - size suffix)) (size suffix) suffix ;;
    ok (c =? 0).

(** ** Standard output *)

Definition ostream : Type := std_string.

Definition endl : std_string := ["010"%char].

(** [out << s] for a string and for an integer ([int], [size_t]). *)
Definition put (out : ostream) (s : std_string) : ostream := out ++ s.

Definition show_Z (z : Z) : std_string :=
  lit (DecimalString.NilZero.string_of_int (Z.to_int z)).

(** ** std::stoi

    [std::stoi(str)] with the default base 10, as the C++ standard defines
    it through [strtol]: leading white space is skipped, an optional sign
    is read, then the longest run of decimal digits; what follows the
    digits is ignored.  No digit at all throws [invalid_argument]; a value
    outside the range of [int] throws [out_of_range]. *)

Fixpoint skip_spaces (s : std_string) : std_string :=
  match s with
  | c :: rest => if isspace (uchar c) then skip_spaces rest else s
  | [] => []
  end.

(** The digits at the head of [s], most significant first. *)
Fixpoint leading_digits (s : std_string) : list Z :=
  match s with
  | c :: rest =>
      if isdigit (uchar c) then (uchar c - 48) :: leading_digits rest else []
  | [] => []
  end.

Definition digits_value (ds : list Z) : Z :=
  fold_left (fun acc d => 10 * acc + d) ds 0.

Definition stoi (str : std_string) : result Z :=
  let s := skip_spaces str in
  let '(negative, s) :=
    match s with
    | c :: rest =>
        if Ascii.eqb c "-" then (true, rest)
        else if Ascii.eqb c "+" then (false, rest)
        else (false, s)
    | [] => (false, s)
    end in
  match leading_digits s with
  | [] => throw invalid_argument
  | ds =>
      let v := if negative : bool then - digits_value ds else digits_value ds in
      if in_int_range v then ok v else throw out_of_range
  end.

Section Program.

(** Build-time option of logger.cpp. *)
Variable VERBOSE_LOGS : bool.

(** The text [std::cout << d] produces for a [double] with the stream's
    default formatting. *)
Variable show_double : double -> std_string.

(** ** logger.cpp *)

Definition log_with_prefix (prefix msg : std_string) (out : ostream) : ostream :=
  put (put (put out prefix) msg) endl.

Definition log_info (msg : std_string) (out : ostream) : ostream :=
  if VERBOSE_LOGS then log_with_prefix (lit "[INFORMATION] ") msg out
  else log_with_prefix (lit "[INFO] ") msg out.

Definition log_warning (msg : std_string) (out : ostream) : ostream :=
  log_with_prefix (lit "[WARN] ") msg out.

Definition log_error (msg : std_string) (out : ostream) : ostream :=
  log_with_prefix (lit "[ERR ] ") msg out.

(** ** main.cpp *)

(** The loop of [parse_args] over [argv[i]], [argv[i+1]], ... *)
Fixpoint parse_args_loop (args : list std_string) (values : list Z)
         (out : ostream) : list Z * ostream :=
  match args with
  | [] => (values, out)
  | arg :: rest =>
      match stoi arg with
      | ok n => parse_args_loop rest (values ++ [n]) out
      | throw _ =>
          parse_args_loop rest values
            (log_warning (lit "Ignoring invalid number: " ++ arg) out)
      end
  end.

(** [argv] holds the program name at index 0; the loop starts at 1. *)
Definition parse_args (argv : list std_string) (out : ostream)
  : list Z * ostream :=
  parse_args_loop (skipn 1 argv) [] out.

(** [main] returns the exit status and the text on standard output. *)
Definition main (argv : list std_string) : Z * ostream :=
  let '(values, out) := parse_args argv [] in
  match values with
  | [] =>
      (0, log_info (lit "No numbers provided. Example: ./demo 1 2 3 4") out)
  | _ :: _ =>
      let s := compute_stats values in
      let out := put (put (put out (lit "Count: ")) (show_Z (Z.of_nat (length values)))) endl in
      let out := put (put (put out (lit "Mean:  ")) (show_double (mean s))) endl in
      let out := put (put (put out (lit "Min:   ")) (show_double (min s))) endl in
      let out := put (put (put out (lit "Max:   ")) (show_double (max s))) endl in
      let increasing := is_strictly_increasing values in
      let out := put (put (put out (lit "Strictly increasing: "))
                          (if increasing then lit "YES" else lit "NO")) endl in
      let sum := fold_left add values 0 in
      let out := put (put (put out (lit "Sum via add(): ")) (show_Z sum)) endl in
      let out := put (put (put out (lit "Sum * 2 via multiply(): "))
                          (show_Z (multiply sum 2))) endl in
      (0, out)
  end.

End Program.

(** ** Specification-level notions

    Definitions that follow the wording of the specification; the
    theorems of Part II compare the program with them. *)

(** A [std::string] never has [npos] or more characters. *)
Definition valid_string (s : std_string) : Prop := size s < npos.

(** Membership in the set {space, tab, newline, carriage return}. *)
Definition is_trim_char (c : ascii) : bool :=
  Ascii.eqb c " " || Ascii.eqb c "009" || Ascii.eqb c "010" || Ascii.eqb c "013".

Fixpoint take_while (p : ascii -> bool) (s : std_string) : std_string :=
  match s with
  | c :: rest => if p c then c :: take_while p rest else []
  | [] => []
  end.

Fixpoint drop_while (p : ascii -> bool) (s : std_string) : std_string :=
  match s with
  | c :: rest => if p c then drop_while p rest else s
  | [] => []
  end.

(** [s] with its leading and its trailing characters of the set removed. *)
Definition strip (s : std_string) : std_string :=
  rev (drop_while is_trim_char (rev (drop_while is_trim_char s))).

(** The three parts of a string: leading characters of the set, the
    stripped string, trailing characters of the set. *)
Definition leading (s : std_string) : std_string := take_while is_trim_char s.

Definition trailing (s : std_string) : std_string :=
  rev (take_while is_trim_char (rev (drop_while is_trim_char s))).

(** Exact sum, least and greatest element of a non-empty sequence. *)
Definition exact_sum (v : list Z) : Z := fold_right Z.add 0 v.

Definition smallest (v : list Z) : Z :=
  match v with
  | [] => 0
  | x :: rest => fold_right Z.min x rest
  end.

Definition largest (v : list Z) : Z :=
  match v with
  | [] => 0
  | x :: rest => fold_right Z.max x rest
  end.






(** The values and the warning text [parse_args] is expected to produce
    for the tokens [args], in argument order. *)
Definition warning_line (tok : std_string) : std_string :=
  lit "[WARN] Ignoring invalid number: " ++ tok ++ endl.

Definition parsed_values (args : list std_string) : list Z :=
  flat_map (fun tok => match stoi tok with ok n => [n] | throw _ => [] end) args.

Definition warnings (args : list std_string) : std_string :=
  flat_map (fun tok => match stoi tok with
                       | ok _ => []
                       | throw _ => warning_line tok
                       end) args.

Definition usage_line (verbose : bool) : std_string :=
  (if verbose then lit "[INFORMATION] " else lit "[INFO] ")
    ++ lit "No numbers provided. Example: ./demo 1 2 3 4" ++ endl.

(** Order on [double]: [x <= y]. *)
Definition double_le (x y : double) : bool := SFleb x y.

(** The integer a [double] is equal to, when it is equal to one. *)
Definition double_to_Z (d : double) : option Z :=
  match d with
  | S754_zero _ => Some 0
  | S754_finite s m e =>
      if 0 <=? e then Some (if s then - (Zpos m * 2 ^ e) else Zpos m * 2 ^ e)
      else if Zpos m mod 2 ^ (- e) =? 0
           then Some (if s then - (Zpos m / 2 ^ (- e)) else Zpos m / 2 ^ (- e))
           else None
  | _ => None
  end.

(** A normal binary64 significand. *)
Definition mant53 (m : Z) : Prop := 2 ^ 52 <= m < 2 ^ 53.

(** The double with significand [m] and exponent [e] is the positive
    integer [z]: [m * 2^e = z]. *)
Definition represents (z : Z) (m : positive) (e : Z) : Prop :=
  mant53 (Zpos m) /\ -52 <= e <= 1 /\ Zpos m * 2 ^ (e + 100) = z * 2 ^ 100.

(** [mb * 2^eb <= mz * 2^ez] for two normal significands. *)
Definition below (mb : positive) (eb : Z) (mz : positive) (ez : Z) : Prop :=
  eb < ez \/ (eb = ez /\ Zpos mb <= Zpos mz).

(** Two long vectors of equal elements: [2^32 + 1] times [INT_MIN], whose
    sum does not fit [long long], and [2^22 + 1] times [INT_MAX], whose
    sum is not a [double]. *)
Definition overflow_input : list Z :=
  repeat (-2147483648) (Z.to_nat 4294967297).

Definition rounding_input : list Z :=
  repeat 2147483647 (Z.to_nat 4194305).

(** Number of line terminators in a text. *)
Definition newlines (s : std_string) : nat := count_occ ascii_dec s "010"%char.

(** A text without lowercase ASCII letter, without uppercase ASCII letter. *)
Definition no_lower (s : std_string) : bool :=
  forallb (fun c => negb (islower (uchar c))) s.

Definition no_upper (s : std_string) : bool :=
  forallb (fun c => negb (isupper (uchar c))) s.

(** * Part II: verification *)

(** ** is_strictly_increasing *)

Lemma increasing_from_spec (values : list Z) (i : nat) :
  increasing_from values i = true <->
  forall j, (i <= j < length values)%nat ->
            vector_at values (j - 1) < vector_at values j.
Proof.
  funelim (increasing_from values i).
  - destruct (Z.leb_spec (vector_at values i) (vector_at values (i - 1)))
      as [Hle | Hgt].
    + split; [discriminate |].
      intros Hall. specialize (Hall i ltac:(lia)). lia.
    + rewrite H. split; intros Hall j Hj.
      * destruct (Nat.eq_dec j i) as [-> | Hne]; [assumption | apply Hall; lia].
      * apply Hall; lia.
  - split; [intros _ j Hj; lia | reflexivity].
Qed.

Example increasing_skips_first_pair : is_strictly_increasing [5; 1; 2; 3] = true.
Proof. reflexivity. Qed.


Lemma vector_at_tail (a b : Z) (rest : list Z) (j : nat) :
  (1 <= j)%nat -> vector_at (a :: b :: rest) j = vector_at (b :: rest) (j - 1).
Proof.
  intros Hj. unfold vector_at. destruct j as [| j]; [lia |].
  simpl. now rewrite Nat.sub_0_r.
Qed.

Lemma is_strictly_increasing_iff (v : list Z) :
  is_strictly_increasing v = true <->
  forall j, (2 <= j < length v)%nat -> vector_at v (j - 1) < vector_at v j.
Proof.
  unfold is_strictly_increasing.
  destruct (Nat.leb_spec (length v) 1) as [Hshort | Hlong].
  - split; [intros _ j Hj; lia | reflexivity].
  - apply increasing_from_spec.
Qed.

Lemma is_strictly_increasing_ignores_first (a a' b : Z) (rest : list Z) :
  is_strictly_increasing (a :: b :: rest) =
  is_strictly_increasing (a' :: b :: rest).
Proof.
  apply eq_true_iff_eq. rewrite !is_strictly_increasing_iff. simpl length.
  split; intros Hall j Hj; specialize (Hall j Hj);
    rewrite !vector_at_tail in * by lia; assumption.
Qed.

(** C1. [is_strictly_increasing v] is true when [v] has at most one
    element; for two or more elements it is true exactly when no index
    [i] with [2 <= i <= length v - 1] has [v[i] <= v[i-1]].  The pair
    ([v[0]], [v[1]]) is never compared: the result does not depend on
    [v[0]].  In particular [[5;1;2;3]] is accepted, [[1;2;2;3]] is
    rejected, and the empty and the one-element sequences are accepted. *)
Theorem is_strictly_increasing_spec :
  forall v : list Z,
    ((length v <= 1)%nat -> is_strictly_increasing v = true) /\
    ((2 <= length v)%nat ->
     (is_strictly_increasing v = true <->
      ~ exists i, (2 <= i <= length v - 1)%nat /\
                  vector_at v i <= vector_at v (i - 1))) /\
    (forall a a' b rest,
        is_strictly_increasing (a :: b :: rest) =
        is_strictly_increasing (a' :: b :: rest)) /\
    is_strictly_increasing [5; 1; 2; 3] = true /\
    is_strictly_increasing [1; 2; 2; 3] = false /\
    is_strictly_increasing [] = true /\
    (forall x, is_strictly_increasing [x] = true).
Proof.
  intros v. repeat split.
  - intros Hshort. apply is_strictly_increasing_iff. intros j Hj. lia.
  - intros Hinc [i [Hi Hle]].
    pose proof (proj1 (is_strictly_increasing_iff v) Hinc i ltac:(lia)). lia.
  - intros Hnone. apply is_strictly_increasing_iff. intros j Hj.
    destruct (Z_lt_le_dec (vector_at v (j - 1)) (vector_at v j)) as [Hlt | Hge];
      [assumption |].
    exfalso. apply Hnone. exists j. split; [lia | assumption].
  - apply is_strictly_increasing_ignores_first.
Qed.

Lemma is_strictly_increasing_spec_witness :
  is_strictly_increasing [7] = true /\
  (is_strictly_increasing [5; 1; 2; 3] = true <->
   ~ exists i, (2 <= i <= length [5; 1; 2; 3] - 1)%nat /\
               vector_at [5; 1; 2; 3] i <= vector_at [5; 1; 2; 3] (i - 1)).
Proof.
  split.
  - apply (proj1 (is_strictly_increasing_spec [7])). simpl. lia.
  - apply (proj1 (proj2 (is_strictly_increasing_spec [5; 1; 2; 3]))). simpl. lia.
Defined.

(** ** string_utils: scanning *)

Section Scanning.

Variable p : ascii -> bool.

Lemma take_drop_while (s : std_string) :
  take_while p s ++ drop_while p s = s.
Proof.
  induction s as [| c s IH]; simpl; [reflexivity |].
  destruct (p c); simpl; [now rewrite IH | reflexivity].
Qed.

Lemma forallb_take_while (s : std_string) :
  forallb p (take_while p s) = true.
Proof.
  induction s as [| c s IH]; simpl; [reflexivity |].
  destruct (p c) eqn:Hc; simpl; [now rewrite Hc | reflexivity].
Qed.

Lemma drop_while_head (s : std_string) (c : ascii) (t : std_string) :
  drop_while p s = c :: t -> p c = false.
Proof.
  induction s as [| d s IH]; simpl; [discriminate |].
  destruct (p d) eqn:Hd; [assumption |].
  intros [= -> _]. assumption.
Qed.

Lemma drop_while_all (s : std_string) :
  forallb p s = true -> drop_while p s = [].
Proof.
  induction s as [| c s IH]; simpl; [reflexivity |].
  destruct (p c); simpl; [assumption | discriminate].
Qed.

Lemma drop_while_nil_all (s : std_string) :
  drop_while p s = [] -> forallb p s = true.
Proof.
  induction s as [| c s IH]; simpl; [reflexivity |].
  destruct (p c); simpl; [assumption | discriminate].
Qed.

Lemma drop_while_fixed (s : std_string) :
  (forall c t, s = c :: t -> p c = false) -> drop_while p s = s.
Proof.
  destruct s as [| c s]; simpl; [reflexivity |].
  intros Hhead. now rewrite (Hhead c s eq_refl).
Qed.

Lemma take_while_app_all (u v : std_string) :
  forallb p u = true -> take_while p (u ++ v) = u ++ take_while p v.
Proof.
  induction u as [| c u IH]; simpl; [reflexivity |].
  destruct (p c); simpl; [intros Hu; now rewrite IH | discriminate].
Qed.

Lemma take_while_stop (s : std_string) :
  (forall c t, s = c :: t -> p c = false) -> take_while p s = [].
Proof.
  destruct s as [| c s]; simpl; [reflexivity |].
  intros Hhead. now rewrite (Hhead c s eq_refl).
Qed.

Lemma forallb_rev (s : std_string) : forallb p (rev s) = forallb p s.
Proof.
  apply eq_true_iff_eq. rewrite !forallb_forall.
  split; intros Hall c Hc; apply Hall;
    [rewrite <- in_rev | rewrite in_rev]; assumption.
Qed.

End Scanning.

Lemma char_in_whitespace (c : ascii) : char_in c whitespace = is_trim_char c.
Proof.
  unfold char_in, whitespace, is_trim_char. simpl.
  now rewrite orb_false_r, !orb_assoc.
Qed.

Lemma find_first_not_of_from_spec (s : std_string) (pos : Z) :
  find_first_not_of_from s whitespace pos =
  if forallb is_trim_char s then npos
  else pos + Z.of_nat (length (take_while is_trim_char s)).
Proof.
  revert pos. induction s as [| c s IH]; intros pos; [reflexivity |].
  cbn [find_first_not_of_from forallb take_while].
  rewrite char_in_whitespace. destruct (is_trim_char c); cbn [andb length].
  - rewrite IH. destruct (forallb is_trim_char s); lia.
  - lia.
Qed.

Lemma find_last_not_of_from_spec (rs : std_string) (pos : Z) :
  find_last_not_of_from rs whitespace pos =
  if forallb is_trim_char rs then npos
  else pos - Z.of_nat (length (take_while is_trim_char rs)).
Proof.
  revert pos. induction rs as [| c rs IH]; intros pos; [reflexivity |].
  cbn [find_last_not_of_from forallb take_while].
  rewrite char_in_whitespace. destruct (is_trim_char c); cbn [andb length].
  - rewrite IH. destruct (forallb is_trim_char rs); lia.
  - lia.
Qed.

Lemma strip_decompose (s : std_string) : s = leading s ++ strip s ++ trailing s.
Proof.
  unfold leading, strip, trailing.
  rewrite <- rev_app_distr, take_drop_while, rev_involutive.
  now rewrite take_drop_while.
Qed.

Lemma leading_all (s : std_string) : forallb is_trim_char (leading s) = true.
Proof. apply forallb_take_while. Qed.

Lemma trailing_all (s : std_string) : forallb is_trim_char (trailing s) = true.
Proof. unfold trailing. rewrite forallb_rev. apply forallb_take_while. Qed.

Lemma strip_last (s : std_string) (c : ascii) (t : std_string) :
  strip s = t ++ [c] -> is_trim_char c = false.
Proof.
  unfold strip. intros Hs. apply (f_equal (@rev ascii)) in Hs.
  rewrite rev_involutive, rev_app_distr in Hs. simpl in Hs.
  eapply drop_while_head; eassumption.
Qed.

Lemma strip_first (s : std_string) (c : ascii) (t : std_string) :
  strip s = c :: t -> is_trim_char c = false.
Proof.
  intros Hs.
  assert (Hd : drop_while is_trim_char s = strip s ++ trailing s).
  { unfold strip, trailing.
    now rewrite <- rev_app_distr, take_drop_while, rev_involutive. }
  rewrite Hs in Hd. simpl in Hd. eapply drop_while_head; eassumption.
Qed.

Lemma strip_all (s : std_string) :
  forallb is_trim_char s = true -> strip s = [].
Proof.
  intros Hall. unfold strip. now rewrite (drop_while_all _ _ Hall).
Qed.

Lemma strip_nil_all (s : std_string) :
  strip s = [] -> forallb is_trim_char s = true.
Proof.
  intros Hs. rewrite (strip_decompose s), Hs. simpl.
  rewrite forallb_app, leading_all, trailing_all. reflexivity.
Qed.

Lemma strip_idempotent (s : std_string) : strip (strip s) = strip s.
Proof.
  unfold strip at 1.
  rewrite (drop_while_fixed _ (strip s)) by (intros c t; apply strip_first).
  rewrite drop_while_fixed; [apply rev_involutive |].
  intros c t Hrev. apply (strip_last s c (rev t)).
  rewrite <- (rev_involutive (strip s)), Hrev. reflexivity.
Qed.

(** ** string_utils: trim *)

Lemma wrap_size_small (z : Z) : 0 <= z < 2 ^ 64 -> wrap_size z = z.
Proof. intros Hz. unfold wrap_size. now apply Z.mod_small. Qed.

Lemma size_app (a b : std_string) : size (a ++ b) = size a + size b.
Proof. unfold size. rewrite length_app. lia. Qed.

Lemma size_nonneg (s : std_string) : 0 <= size s.
Proof. unfold size. lia. Qed.

Lemma substr_middle (l m r : std_string) :
  substr (l ++ m ++ r) (size l) (size m) = ok m.
Proof.
  unfold substr. rewrite !size_app.
  pose proof (size_nonneg m). pose proof (size_nonneg r).
  destruct (Z.gtb_spec (size l) (size l + (size m + size r))) as [Hgt | _]; [lia |].
  replace (Z.to_nat (Z.min _ _)) with (length m) by (unfold size in *; lia).
  replace (Z.to_nat (size l)) with (length l) by (unfold size; lia).
  rewrite skipn_app, skipn_all, Nat.sub_diag. simpl.
  rewrite firstn_app, Nat.sub_diag, firstn_all. simpl.
  now rewrite app_nil_r.
Qed.

Lemma trim_parts (l m r : std_string) :
  forallb is_trim_char l = true ->
  forallb is_trim_char r = true ->
  m <> [] ->
  (forall c t, m = c :: t -> is_trim_char c = false) ->
  (forall c t, m = t ++ [c] -> is_trim_char c = false) ->
  valid_string (l ++ m ++ r) ->
  trim (l ++ m ++ r) = ok m.
Proof.
  intros Hl Hr Hm Hfirst Hlast Hvalid.
  unfold valid_string, npos in Hvalid. rewrite !size_app in Hvalid.
  pose proof (size_nonneg l). pose proof (size_nonneg m). pose proof (size_nonneg r).
  assert (Hsome : forallb is_trim_char (l ++ m ++ r) = false).
  { destruct m as [| c m']; [congruence |].
    rewrite !forallb_app. simpl. rewrite (Hfirst c m' eq_refl).
    now rewrite andb_false_r. }
  assert (Hlead : take_while is_trim_char (l ++ m ++ r) = l).
  { rewrite take_while_app_all by assumption.
    rewrite take_while_stop; [apply app_nil_r |].
    intros c t Heq. destruct m as [| c' m']; [congruence |].
    simpl in Heq. injection Heq as Hc _. subst. eapply Hfirst; reflexivity. }
  assert (Htrail : take_while is_trim_char (rev (l ++ m ++ r)) = rev r).
  { rewrite !rev_app_distr, <- app_assoc.
    rewrite take_while_app_all by (now rewrite forallb_rev).
    rewrite take_while_stop; [apply app_nil_r |].
    intros c t Heq. destruct (rev m) as [| d t'] eqn:Hrev.
    - apply (f_equal (@rev ascii)) in Hrev. rewrite rev_involutive in Hrev.
      simpl in Hrev. congruence.
    - simpl in Heq. injection Heq as Hc _. subst. apply (Hlast c (rev t')).
      rewrite <- (rev_involutive m), Hrev. reflexivity. }
  unfold trim, find_first_not_of, find_last_not_of.
  rewrite find_first_not_of_from_spec, find_last_not_of_from_spec.
  rewrite forallb_rev, Hsome, Hlead, Htrail, length_rev.
  fold (size l). fold (size r). rewrite !size_app.
  destruct (Z.eqb_spec (0 + size l) npos) as [Heq | _];
    [unfold npos in Heq; lia |].
  replace (size l + (size m + size r) - 1 - size r - (0 + size l) + 1)
    with (size m) by lia.
  rewrite wrap_size_small by lia.
  replace (0 + size l) with (size l) by lia.
  apply substr_middle.
Qed.

Lemma trim_strip (s : std_string) :
  valid_string s -> trim s = ok (strip s).
Proof.
  intros Hvalid. destruct (strip s) as [| c m] eqn:Hs.
  - apply strip_nil_all in Hs. unfold trim, find_first_not_of.
    rewrite find_first_not_of_from_spec, Hs. reflexivity.
  - rewrite <- Hs. rewrite (strip_decompose s) at 1.
    apply trim_parts.
    + apply leading_all.
    + apply trailing_all.
    + congruence.
    + intros d t. apply strip_first.
    + intros d t. apply strip_last.
    + now rewrite <- strip_decompose.
Qed.

Lemma strip_size (s : std_string) : size (strip s) <= size s.
Proof.
  rewrite (strip_decompose s) at 2. rewrite !size_app.
  pose proof (size_nonneg (leading s)). pose proof (size_nonneg (trailing s)). lia.
Qed.

(** C6. For a string [s], [trim s] returns (without throwing) the string
    [t] that remains when the leading and the trailing characters of the
    set {space, tab, newline, carriage return} are removed from [s]:
    [s = l ++ t ++ r] with [l] and [r] made of such characters only and
    [t] neither starting nor ending with one; [t] is empty when [s] is
    empty or consists of such characters only.  In particular
    [trim "  a b  " = "a b"] and [trim "   " = ""]. *)
Theorem trim_spec :
  (forall s : std_string,
      valid_string s ->
      trim s = ok (strip s) /\
      (exists l r,
          s = l ++ strip s ++ r /\
          forallb is_trim_char l = true /\
          forallb is_trim_char r = true) /\
      (forall c t, strip s = c :: t -> is_trim_char c = false) /\
      (forall c t, strip s = t ++ [c] -> is_trim_char c = false) /\
      (forallb is_trim_char s = true -> trim s = ok [])) /\
  trim [] = ok [] /\
  trim (lit "  a b  ") = ok (lit "a b") /\
  trim (lit "   ") = ok (lit "").
Proof.
  split; [| repeat split].
  intros s Hvalid. repeat split.
  - now apply trim_strip.
  - exists (leading s), (trailing s).
    auto using strip_decompose, leading_all, trailing_all.
  - apply strip_first.
  - apply strip_last.
  - intros Hall. rewrite trim_strip by assumption. now rewrite strip_all.
Qed.

Lemma trim_spec_witness :
  trim (lit " x y ") = ok (strip (lit " x y ")) /\
  strip (lit " x y ") = lit "x y".
Proof.
  split.
  - apply (proj1 trim_spec (lit " x y ")). unfold valid_string. vm_compute. reflexivity.
  - reflexivity.
Defined.

(** C10. [trim] is idempotent: trimming the result of [trim s] returns
    that result again. *)
Theorem trim_idempotent :
  forall s : std_string,
    valid_string s ->
    exists t, trim s = ok t /\ (r <- trim s ;; trim r) = ok t.
Proof.
  intros s Hvalid. exists (strip s).
  rewrite trim_strip by assumption. split; [reflexivity |]. simpl.
  rewrite trim_strip.
  - now rewrite strip_idempotent.
  - unfold valid_string in *. pose proof (strip_size s). lia.
Qed.

Lemma trim_idempotent_witness :
  exists t, trim (lit "  a b  ") = ok t /\
            (r <- trim (lit "  a b  ") ;; trim r) = ok t.
Proof.
  apply (trim_idempotent (lit "  a b  ")). unfold valid_string. vm_compute. reflexivity.
Defined.

(** ** string_utils: starts_with and ends_with *)

Lemma uchar_inj (x y : ascii) : uchar x = uchar y -> x = y.
Proof.
  unfold uchar. intros Heq. apply N2Z.inj in Heq.
  rewrite <- (ascii_N_embedding x), <- (ascii_N_embedding y). now f_equal.
Qed.

Lemma compare_strings_eq (a b : std_string) :
  compare_strings a b = 0 <-> a = b.
Proof.
  revert b. induction a as [| x a IH]; intros [| y b]; simpl;
    try (split; [lia | discriminate]); [tauto |].
  destruct (Z.ltb_spec (uchar x) (uchar y)) as [Hlt | Hge].
  - split; [lia | intros [= -> _]; lia].
  - destruct (Z.ltb_spec (uchar y) (uchar x)) as [Hgt | Hle].
    + split; [lia | intros [= -> _]; lia].
    + assert (x = y) as -> by (apply uchar_inj; lia).
      rewrite IH. split; [intros -> | intros [= ->]]; reflexivity.
Qed.

Lemma starts_with_eval (str prefix : std_string) :
  starts_with str prefix =
  ok ((size prefix <=? size str) &&
      (compare_strings (firstn (length prefix) str) prefix =? 0)).
Proof.
  unfold starts_with, compare, substr. pose proof (size_nonneg str).
  destruct (Z.gtb_spec (size prefix) (size str)) as [Hgt | Hle].
  - destruct (Z.leb_spec (size prefix) (size str)); [lia | reflexivity].
  - destruct (Z.leb_spec (size prefix) (size str)); [| lia].
    destruct (Z.gtb_spec 0 (size str)); [lia |]. simpl.
    replace (Z.to_nat (Z.min _ _)) with (length prefix)
      by (unfold size in *; lia).
    reflexivity.
Qed.

Lemma ends_with_eval (str suffix : std_string) :
  valid_string str ->
  ends_with str suffix =
  ok ((size suffix <=? size str) &&
      (compare_strings (skipn (length str - length suffix) str) suffix =? 0)).
Proof.
  unfold valid_string, npos. intros Hvalid.
  unfold ends_with, compare, substr.
  pose proof (size_nonneg str). pose proof (size_nonneg suffix).
  destruct (Z.gtb_spec (size suffix) (size str)) as [Hgt | Hle].
  - destruct (Z.leb_spec (size suffix) (size str)); [lia | reflexivity].
  - destruct (Z.leb_spec (size suffix) (size str)); [| lia].
    rewrite wrap_size_small by lia.
    destruct (Z.gtb_spec (size str - size suffix) (size str)); [lia |]. simpl.
    replace (Z.to_nat (Z.min _ _)) with (length suffix)
      by (unfold size in *; lia).
    replace (Z.to_nat (size str - size suffix))
      with (length str - length suffix)%nat by (unfold size in *; lia).
    rewrite firstn_all2; [reflexivity |].
    rewrite length_skipn. unfold size in *. lia.
Qed.

Lemma starts_with_iff (s x : std_string) :
  starts_with s x = ok true <->
  (length x <= length s)%nat /\ firstn (length x) s = x.
Proof.
  rewrite starts_with_eval. unfold size.
  destruct (Z.leb_spec (Z.of_nat (length x)) (Z.of_nat (length s))); simpl.
  - destruct (Z.eqb_spec (compare_strings (firstn (length x) s) x) 0)
      as [He | Hne].
    + apply compare_strings_eq in He.
      split; [intros _; split; [lia | assumption] | reflexivity].
    + rewrite compare_strings_eq in Hne. split; [discriminate | tauto].
  - split; [discriminate | lia].
Qed.

Lemma ends_with_iff (s x : std_string) :
  valid_string s ->
  ends_with s x = ok true <->
  (length x <= length s)%nat /\ skipn (length s - length x) s = x.
Proof.
  intros Hvalid. rewrite ends_with_eval by assumption. unfold size.
  destruct (Z.leb_spec (Z.of_nat (length x)) (Z.of_nat (length s))); simpl.
  - destruct (Z.eqb_spec (compare_strings (skipn (length s - length x) s) x) 0)
      as [He | Hne].
    + apply compare_strings_eq in He.
      split; [intros _; split; [lia | assumption] | reflexivity].
    + rewrite compare_strings_eq in Hne. split; [discriminate | tauto].
  - split; [discriminate | lia].
Qed.

(** C7. [starts_with s prefix] returns true exactly when [prefix] is no
    longer than [s] and the first [length prefix] characters of [s] are
    [prefix]; [ends_with s suffix] returns true exactly when [suffix] is
    no longer than [s] and the last [length suffix] characters of [s] are
    [suffix].  Neither call throws.  The empty string is a prefix and a
    suffix of every [s], and [starts_with "ab" "abc"] is false. *)
Theorem starts_ends_with_spec :
  (forall s x : std_string,
      valid_string s ->
      (starts_with s x = ok true <->
       (length x <= length s)%nat /\ firstn (length x) s = x) /\
      (starts_with s x = ok true \/ starts_with s x = ok false) /\
      (ends_with s x = ok true <->
       (length x <= length s)%nat /\ skipn (length s - length x) s = x) /\
      (ends_with s x = ok true \/ ends_with s x = ok false) /\
      starts_with s [] = ok true /\
      ends_with s [] = ok true) /\
  starts_with (lit "ab") (lit "abc") = ok false.
Proof.
  split; [| reflexivity].
  intros s x Hvalid.
  split; [apply starts_with_iff |]. split.
  { rewrite starts_with_eval. destruct (_ && _); auto. }
  split; [now apply ends_with_iff |]. split.
  { rewrite ends_with_eval by assumption. destruct (_ && _); auto. }
  split.
  - apply starts_with_iff. simpl. split; [lia | reflexivity].
  - apply ends_with_iff; [assumption |]. simpl. split; [lia |].
    rewrite Nat.sub_0_r. apply skipn_all.
Qed.

Lemma starts_ends_with_spec_witness :
  (starts_with (lit "main.cpp") (lit "main") = ok true <->
   (length (lit "main") <= length (lit "main.cpp"))%nat /\
   firstn (length (lit "main")) (lit "main.cpp") = lit "main") /\
  ends_with (lit "main.cpp") (lit ".cpp") = ok true.
Proof.
  assert (Hvalid : valid_string (lit "main.cpp"))
    by (unfold valid_string; vm_compute; reflexivity).
  pose proof (proj1 starts_ends_with_spec (lit "main.cpp") (lit "main") Hvalid)
    as [Hsw _].
  pose proof (proj1 starts_ends_with_spec (lit "main.cpp") (lit ".cpp") Hvalid)
    as [_ [_ [Hew _]]].
  split; [exact Hsw |].
  apply Hew. split; [simpl; lia | reflexivity].
Defined.

(** ** string_utils: case conversion *)

Lemma toupper_tolower (c : ascii) :
  to_char (toupper (uchar (to_char (tolower (uchar c))))) =
  to_char (toupper (uchar c)).
Proof.
  destruct c as [[] [] [] [] [] [] [] []]; reflexivity.
Qed.

Lemma to_upper_to_lower (s : std_string) : to_upper (to_lower s) = to_upper s.
Proof.
  unfold to_upper, to_lower. rewrite map_map.
  apply map_ext. intros c. apply toupper_tolower.
Qed.

(** C8. For a string [s] made of ASCII letters only,
    [to_upper (to_lower s) = to_upper s]. *)
Theorem to_upper_to_lower_alpha :
  forall s : std_string,
    Forall (fun c => isalpha (uchar c) = true) s ->
    to_upper (to_lower s) = to_upper s.
Proof.
  intros s _. apply to_upper_to_lower.
Qed.

Lemma to_upper_to_lower_alpha_witness :
  to_upper (to_lower (lit "bAz")) = to_upper (lit "bAz") /\
  to_upper (lit "bAz") = lit "BAZ".
Proof.
  split; [| reflexivity].
  apply (to_upper_to_lower_alpha (lit "bAz")).
  repeat constructor.
Defined.

(** ** main.cpp: argument parsing *)

Lemma log_warning_text (msg : std_string) (out : ostream) :
  log_warning msg out = out ++ lit "[WARN] " ++ msg ++ endl.
Proof.
  unfold log_warning, log_with_prefix, put. now rewrite <- !app_assoc.
Qed.

Lemma parse_args_loop_spec (args : list std_string) (values : list Z)
      (out : ostream) :
  parse_args_loop args values out =
  (values ++ parsed_values args, out ++ warnings args).
Proof.
  revert values out. induction args as [| arg rest IH]; intros values out.
  - simpl. now rewrite !app_nil_r.
  - cbn [parse_args_loop parsed_values warnings flat_map].
    destruct (stoi arg) as [n | e]; rewrite IH.
    + now rewrite <- app_assoc.
    + rewrite log_warning_text. unfold warning_line, parsed_values, warnings.
      cbn [app]. f_equal. rewrite <- !app_assoc. reflexivity.
Qed.

Lemma parse_args_eval (argv : list std_string) (out : ostream) :
  parse_args argv out =
  (parsed_values (skipn 1 argv), out ++ warnings (skipn 1 argv)).
Proof. unfold parse_args. now rewrite parse_args_loop_spec. Qed.

(** C4. For every argument list, [parse_args] returns the values of the
    tokens that parse, in the order given, with nothing in the place of a
    token that fails to parse, and writes to standard output, in argument
    order, exactly one line [[WARN] Ignoring invalid number: <token>] for
    each token that fails to parse. *)
Theorem parse_args_spec :
  (forall (argv : list std_string) (out : ostream),
      parse_args argv out =
      (parsed_values (skipn 1 argv), out ++ warnings (skipn 1 argv))) /\
  (forall tok : std_string,
      (forall n, stoi tok = ok n ->
                 parsed_values [tok] = [n] /\ warnings [tok] = []) /\
      (forall e, stoi tok = throw e ->
                 parsed_values [tok] = [] /\
                 warnings [tok] =
                 lit "[WARN] Ignoring invalid number: " ++ tok ++ endl)) /\
  (forall a b, parsed_values (a ++ b) = parsed_values a ++ parsed_values b) /\
  (forall a b, warnings (a ++ b) = warnings a ++ warnings b) /\
  parse_args [lit "./demo"; lit "1"; lit "2"; lit "three"; lit "4"] [] =
  ([1; 2; 4], lit "[WARN] Ignoring invalid number: three" ++ endl).
Proof.
  split; [| split; [| split; [| split]]].
  - apply parse_args_eval.
  - intros tok. unfold parsed_values, warnings, warning_line. simpl.
    split; intros r Hr; rewrite Hr; now rewrite ?app_nil_r.
  - intros a b. unfold parsed_values. apply flat_map_app.
  - intros a b. unfold warnings. apply flat_map_app.
  - reflexivity.
Qed.

Lemma parse_args_spec_witness :
  parsed_values [lit "12"] = [12] /\ warnings [lit "12"] = [].
Proof.
  apply (proj1 (proj1 (proj2 parse_args_spec) (lit "12")) 12). reflexivity.
Defined.

(** ** main.cpp: exit status *)

Section Driver.

Variable VERBOSE_LOGS : bool.
Variable show_double : double -> std_string.

Lemma log_info_text (msg : std_string) (out : ostream) :
  log_info VERBOSE_LOGS msg out =
  out ++ (if VERBOSE_LOGS then lit "[INFORMATION] " else lit "[INFO] ")
      ++ msg ++ endl.
Proof.
  unfold log_info, log_with_prefix, put.
  destruct VERBOSE_LOGS; now rewrite <- !app_assoc.
Qed.

Lemma main_exit_status (argv : list std_string) :
  fst (main VERBOSE_LOGS show_double argv) = 0.
Proof.
  unfold main. destruct (parse_args argv []) as [values out].
  destruct values; reflexivity.
Qed.

Lemma main_no_numbers (argv : list std_string) :
  parsed_values (skipn 1 argv) = [] ->
  main VERBOSE_LOGS show_double argv =
  (0, warnings (skipn 1 argv) ++ usage_line VERBOSE_LOGS).
Proof.
  intros Hnone. unfold main.
  rewrite parse_args_eval, Hnone, log_info_text.
  reflexivity.
Qed.

End Driver.

(** C5. When no token parses, [main] writes the warnings followed by one
    informational usage line and returns 0; and for every argument list
    the value [main] returns is 0. *)
Theorem main_exit_status_zero :
  forall (VERBOSE_LOGS : bool) (show_double : double -> std_string)
         (argv : list std_string),
    fst (main VERBOSE_LOGS show_double argv) = 0 /\
    (fst (parse_args argv []) = [] ->
     main VERBOSE_LOGS show_double argv =
     (0, snd (parse_args argv []) ++ usage_line VERBOSE_LOGS)) /\
    main VERBOSE_LOGS show_double [lit "./demo"] =
    (0, usage_line VERBOSE_LOGS).
Proof.
  intros VERBOSE_LOGS show_double argv. split; [apply main_exit_status |].
  split; [| apply main_no_numbers; reflexivity].
  rewrite parse_args_eval. cbn [fst snd app]. apply main_no_numbers.
Qed.

Lemma main_exit_status_zero_witness :
  main false (fun _ => lit "?") [lit "./demo"; lit "x"] =
  (0, lit "[WARN] Ignoring invalid number: x" ++ endl
      ++ lit "[INFO] No numbers provided. Example: ./demo 1 2 3 4" ++ endl).
Proof.
  apply (proj1 (proj2 (main_exit_status_zero false (fun _ => lit "?")
                         [lit "./demo"; lit "x"]))).
  reflexivity.
Defined.

(** ** std::stoi on tokens *)














(** ** IEEE 754 binary64: rounding of a quotient

    [SFdiv] on two normal doubles divides the significands and rounds
    the quotient with [binary_round_aux].  The lemmas below evaluate that
    rounding on 53- and 54-bit quotients and bracket the result between
    the truncated quotient and its successor. *)

Lemma digits2_pos_bounds (p : positive) :
  2 ^ (Zpos (digits2_pos p) - 1) <= Zpos p < 2 ^ Zpos (digits2_pos p).
Proof.
  induction p as [p IH | p IH |]; cbn [digits2_pos].
  - rewrite Pos2Z.inj_succ. replace (Z.succ (Zpos (digits2_pos p)) - 1) with (Zpos (digits2_pos p)) by lia.
    rewrite Z.pow_succ_r by lia.
    replace (Zpos (digits2_pos p)) with (Z.succ (Zpos (digits2_pos p) - 1)) at 1 by lia.
    rewrite Z.pow_succ_r by lia. lia.
  - rewrite Pos2Z.inj_succ. replace (Z.succ (Zpos (digits2_pos p)) - 1) with (Zpos (digits2_pos p)) by lia.
    rewrite Z.pow_succ_r by lia.
    replace (Zpos (digits2_pos p)) with (Z.succ (Zpos (digits2_pos p) - 1)) at 1 by lia.
    rewrite Z.pow_succ_r by lia. lia.
  - simpl. lia.
Qed.

Lemma digits2_pos_unique (p : positive) (d : Z) :
  2 ^ (d - 1) <= Zpos p < 2 ^ d -> Zpos (digits2_pos p) = d.
Proof.
  intros [Hlo Hhi]. pose proof (digits2_pos_bounds p) as [Blo Bhi].
  set (k := Zpos (digits2_pos p)) in *.
  assert (0 < k) by (subst k; lia).
  assert (0 < d).
  { destruct (Z_lt_le_dec 0 d); [assumption |].
    destruct (Z.eq_dec d 0) as [-> | ]; [simpl in Hhi; lia |].
    rewrite Z.pow_neg_r in Hhi by lia. lia. }
  destruct (Z.lt_trichotomy k d) as [Hlt | [Heq | Hgt]]; [| assumption |].
  - assert (2 ^ k <= 2 ^ (d - 1)) by (apply Z.pow_le_mono_r; lia). lia.
  - assert (2 ^ d <= 2 ^ (k - 1)) by (apply Z.pow_le_mono_r; lia). lia.
Qed.

Lemma iter_xO_mul (p k : positive) :
  Zpos (Pos.iter xO p k) = Zpos p * 2 ^ Zpos k.
Proof.
  rewrite <- (Z.shiftl_mul_pow2 (Zpos p) (Zpos k)) by lia.
  cbn [Z.shiftl]. revert p.
  induction k using Pos.peano_ind; intros p.
  - reflexivity.
  - rewrite !Pos.iter_succ. rewrite <- IHk. reflexivity.
Qed.

Lemma Zdigits2_53 (q : Z) : mant53 q -> Zdigits2 q = 53.
Proof.
  unfold mant53. intros Hq. destruct q as [| p | p]; [lia | | lia].
  cbn [Zdigits2]. apply digits2_pos_unique. exact Hq.
Qed.

Lemma Zdigits2_54 (q : Z) : 2 ^ 53 <= q < 2 ^ 54 -> Zdigits2 q = 54.
Proof.
  intros Hq. destruct q as [| p | p]; [lia | | lia].
  cbn [Zdigits2]. apply digits2_pos_unique. exact Hq.
Qed.

Lemma fexp_normal (e : Z) : -1074 <= e -> fexp prec emax (53 + e) = e.
Proof. unfold fexp, emin, prec, emax. lia. Qed.

(** A 53-bit significand is not shifted. *)
Lemma shr_fexp_53 (q e : Z) (l : location) :
  mant53 q -> -1074 <= e ->
  shr_fexp prec emax q e l = (shr_record_of_loc q l, e).
Proof.
  intros Hq He. unfold shr_fexp. rewrite (Zdigits2_53 q Hq), fexp_normal by lia.
  rewrite Z.sub_diag. reflexivity.
Qed.

(** A 54-bit significand is shifted by one bit. *)
Lemma shr_fexp_54 (q e : Z) (l : location) :
  2 ^ 53 <= q < 2 ^ 54 -> -1074 <= e ->
  shr_fexp prec emax q e l = (shr_1 (shr_record_of_loc q l), e + 1).
Proof.
  intros Hq He. unfold shr_fexp. rewrite (Zdigits2_54 q Hq).
  replace (54 + e) with (53 + (e + 1)) by lia. rewrite fexp_normal by lia.
  replace (e + 1 - e) with 1 by lia. reflexivity.
Qed.

Lemma shr_1_m (q : Z) (l : location) :
  0 < q -> shr_m (shr_1 (shr_record_of_loc q l)) = q / 2.
Proof.
  intros Hq. destruct q as [| p | p]; [lia | | lia].
  destruct l as [| []]; destruct p; cbn [shr_record_of_loc shr_1 shr_m];
    try reflexivity;
    try (apply Z.div_unique with 1; lia);
    try (apply Z.div_unique with 0; lia).
Qed.

Lemma loc_of_shr_record_of_loc (q : Z) (l : location) :
  loc_of_shr_record (shr_record_of_loc q l) = l.
Proof. destruct l as [| []]; reflexivity. Qed.

Lemma shr_m_of_loc (q : Z) (l : location) : shr_m (shr_record_of_loc q l) = q.
Proof. destruct l as [| []]; reflexivity. Qed.

Lemma round_nearest_even_cases (m : Z) (l : location) :
  round_nearest_even m l = m \/
  (l <> loc_Exact /\ round_nearest_even m l = m + 1).
Proof.
  destruct l as [| []]; cbn; auto.
  - destruct (Z.even m); [auto | right; split; [discriminate | reflexivity]].
  - right; split; [discriminate | reflexivity].
Qed.

(** The last step of [binary_round_aux]: the rounded significand is
    renormalised when rounding carried into bit 53. *)
Lemma finish_round (s : bool) (q e : Z) :
  2 ^ 52 <= q <= 2 ^ 53 -> -1074 <= e <= 960 ->
  exists mz ez,
    (let '(mrs, e'') := shr_fexp prec emax q e loc_Exact in
     match shr_m mrs with
     | Z0 => S754_zero s
     | Zpos m => if e'' <=? emax - prec then S754_finite s m e'' else S754_infinity s
     | Zneg _ => S754_nan
     end) = S754_finite s mz ez /\
    mant53 (Zpos mz) /\
    ((q < 2 ^ 53 /\ Zpos mz = q /\ ez = e) \/
     (q = 2 ^ 53 /\ Zpos mz = 2 ^ 52 /\ ez = e + 1)).
Proof.
  intros Hq He. destruct (Z_lt_le_dec q (2 ^ 53)) as [Hlt | Hge].
  - rewrite shr_fexp_53 by (unfold mant53; lia). cbn [shr_record_of_loc shr_m].
    destruct q as [| p | p]; [lia | | lia].
    exists p, e. destruct (Z.leb_spec e (emax - prec)); [| unfold emax, prec in *; lia].
    split; [reflexivity |]. split; [unfold mant53; lia | left; lia].
  - assert (q = 2 ^ 53) as -> by lia.
    rewrite shr_fexp_54 by lia.
    exists (2 ^ 52)%positive, (e + 1).
    change (shr_m (shr_1 (shr_record_of_loc (2 ^ 53) loc_Exact))) with (Zpos (2 ^ 52)).
    cbv iota beta.
    destruct (Z.leb_spec (e + 1) (emax - prec)); [| unfold emax, prec in *; lia].
    split; [reflexivity |]. split; [unfold mant53; lia | right; lia].
Qed.

Lemma binary_round_aux_53 (s : bool) (q e : Z) (l : location) :
  mant53 q -> -1074 <= e <= 900 ->
  exists mz ez,
    binary_round_aux prec emax s q e l = S754_finite s mz ez /\
    mant53 (Zpos mz) /\
    ((Zpos mz = q /\ ez = e) \/
     (l <> loc_Exact /\
      ((Zpos mz = q + 1 /\ ez = e) \/
       (q + 1 = 2 ^ 53 /\ Zpos mz = 2 ^ 52 /\ ez = e + 1)))).
Proof.
  intros Hq He. unfold binary_round_aux.
  rewrite shr_fexp_53 by (assumption || lia).
  rewrite loc_of_shr_record_of_loc, shr_m_of_loc.
  unfold mant53 in Hq.
  destruct (round_nearest_even_cases q l) as [-> | [Hl ->]].
  - destruct (finish_round s q e ltac:(lia) ltac:(lia)) as (mz & ez & Hres & Hmz & Hcase).
    exists mz, ez. split; [exact Hres |]. split; [assumption |]. left. lia.
  - destruct (finish_round s (q + 1) e ltac:(lia) ltac:(lia)) as (mz & ez & Hres & Hmz & Hcase).
    exists mz, ez. split; [exact Hres |]. split; [assumption |]. right.
    split; [assumption |]. lia.
Qed.

Lemma binary_round_aux_54 (s : bool) (q e : Z) (l : location) :
  2 ^ 53 <= q < 2 ^ 54 -> -1074 <= e <= 900 ->
  exists mz ez,
    binary_round_aux prec emax s q e l = S754_finite s mz ez /\
    mant53 (Zpos mz) /\
    ((Zpos mz = q / 2 /\ ez = e + 1) \/
     (~ (l = loc_Exact /\ Z.even q = true) /\
      ((Zpos mz = q / 2 + 1 /\ ez = e + 1) \/
       (q / 2 + 1 = 2 ^ 53 /\ Zpos mz = 2 ^ 52 /\ ez = e + 2)))).
Proof.
  intros Hq He. unfold binary_round_aux.
  rewrite shr_fexp_54 by (assumption || lia).
  rewrite shr_1_m by lia.
  assert (Hhalf : 2 ^ 52 <= q / 2 < 2 ^ 53).
  { split; [apply Z.div_le_lower_bound | apply Z.div_lt_upper_bound]; lia. }
  set (h := q / 2) in *.
  destruct (round_nearest_even_cases h
              (loc_of_shr_record (shr_1 (shr_record_of_loc q l))))
    as [-> | [Hl ->]].
  - destruct (finish_round s h (e + 1) ltac:(lia) ltac:(lia))
      as (mz & ez & Hres & Hmz & Hcase).
    exists mz, ez. split; [exact Hres |]. split; [assumption |]. left. lia.
  - destruct (finish_round s (h + 1) (e + 1) ltac:(lia) ltac:(lia))
      as (mz & ez & Hres & Hmz & Hcase).
    exists mz, ez. split; [exact Hres |]. split; [assumption |]. right. split.
    + intros [-> Hev]. apply Hl.
      destruct q as [| p | p]; [lia | | lia].
      destruct p; [discriminate Hev | reflexivity | lia].
    + lia.
Qed.

(** *** Conversion of integers *)

Lemma binary_round_aux_exact (s : bool) (m : positive) (e : Z) :
  mant53 (Zpos m) -> -1074 <= e <= 900 ->
  binary_round_aux prec emax s (Zpos m) e loc_Exact = S754_finite s m e.
Proof.
  intros Hm He.
  destruct (binary_round_aux_53 s (Zpos m) e loc_Exact Hm He)
    as (mz & ez & Hres & _ & [[Hmz ->] | [Hl _]]); [| congruence].
  rewrite Hres. congruence.
Qed.

(** A positive integer below [2^53] converts to the double with the same
    value. *)
Lemma binary_round_small (s : bool) (p : positive) :
  Zpos p < 2 ^ 53 ->
  exists m e,
    binary_round prec emax s p 0 = S754_finite s m e /\
    mant53 (Zpos m) /\ -52 <= e <= 0 /\ Zpos m = Zpos p * 2 ^ (- e).
Proof.
  intros Hp. pose proof (digits2_pos_bounds p) as [Dlo Dhi].
  unfold binary_round.
  remember (Zpos (digits2_pos p)) as d eqn:Hdd.
  assert (Hd : 1 <= d <= 53).
  { split; [subst d; lia |].
    destruct (Z_le_gt_dec d 53); [assumption |].
    assert (2 ^ 53 <= 2 ^ (d - 1)) by (apply Z.pow_le_mono_r; lia). lia. }
  replace (d + 0) with (53 + (d - 53)) by lia.
  assert (Hfexp : fexp prec emax (53 + (d - 53)) = d - 53)
    by (unfold fexp, emin, prec, emax; lia).
  rewrite Hfexp. unfold shl_align.
  destruct (d - 53 - 0) as [| k | k] eqn:Hk; [| lia |].
  - assert (d = 53) as -> by lia. change (53 - 1) with 52 in Dlo.
    exists p, 0. rewrite binary_round_aux_exact by (unfold mant53; lia).
    split; [reflexivity |]. split; [unfold mant53; lia |]. split; [lia |].
    simpl. lia.
  - assert (Hm : Zpos (Pos.iter xO p k) = Zpos p * 2 ^ (53 - d)).
    { rewrite iter_xO_mul. f_equal. f_equal. lia. }
    assert (Hmant : mant53 (Zpos (Pos.iter xO p k))).
    { rewrite Hm. unfold mant53.
      replace (2 ^ 52) with (2 ^ (d - 1) * 2 ^ (53 - d))
        by (rewrite <- Z.pow_add_r by lia; f_equal; lia).
      replace (2 ^ 53) with (2 ^ d * 2 ^ (53 - d))
        by (rewrite <- Z.pow_add_r by lia; f_equal; lia).
      assert (0 < 2 ^ (53 - d)) by (apply Z.pow_pos_nonneg; lia).
      split; [apply Z.mul_le_mono_nonneg_r | apply Z.mul_lt_mono_pos_r]; lia. }
    exists (Pos.iter xO p k), (d - 53).
    rewrite binary_round_aux_exact by (assumption || lia).
    split; [reflexivity |]. split; [assumption |]. split; [lia |].
    rewrite Hm. f_equal. f_equal. lia.
Qed.

Lemma binary_round_represents (s : bool) (p : positive) :
  Zpos p <= 2 ^ 53 ->
  exists m e,
    binary_round prec emax s p 0 = S754_finite s m e /\ represents (Zpos p) m e.
Proof.
  intros Hp. destruct (Z_lt_le_dec (Zpos p) (2 ^ 53)) as [Hlt | Hge].
  - destruct (binary_round_small s p Hlt) as (m & e & Hres & Hm & He & Hval).
    exists m, e. split; [assumption |]. split; [assumption |]. split; [lia |].
    rewrite Hval, <- Z.mul_assoc, <- Z.pow_add_r by lia. f_equal. f_equal. lia.
  - assert (Zpos p = 2 ^ 53) as Heq by lia.
    assert (p = (2 ^ 53)%positive) as -> by (apply Pos2Z.inj; exact Heq).
    exists (2 ^ 52)%positive, 1. split; [destruct s; reflexivity |].
    split; [unfold mant53; lia |]. split; [lia | reflexivity].
Qed.

Lemma new_location_exact (n r : Z) : new_location n r = loc_Exact -> r = 0.
Proof.
  unfold new_location, new_location_even, new_location_odd.
  destruct (Z.even n); destruct (Z.eqb_spec r 0); congruence.
Qed.

Lemma SFdiv_finite (s : bool) (m1 m2 : positive) (e1 e2 : Z) :
  mant53 (Zpos m1) -> mant53 (Zpos m2) ->
  -60 <= e1 <= 60 -> -60 <= e2 <= 60 ->
  exists q r,
    Zpos m1 * 2 ^ 53 = Zpos m2 * q + r /\ 0 <= r < Zpos m2 /\
    SFdiv prec emax (S754_finite s m1 e1) (S754_finite false m2 e2) =
    binary_round_aux prec emax s q (e1 - e2 - 53) (new_location (Zpos m2) r).
Proof.
  intros Hm1 Hm2 He1 He2. unfold SFdiv, SFdiv_core_binary.
  rewrite (Zdigits2_53 _ Hm1), (Zdigits2_53 _ Hm2).
  replace (53 + e1 - (53 + e2)) with (53 + (e1 - e2 - 53)) by lia.
  rewrite fexp_normal by lia.
  rewrite Z.min_l by lia.
  replace (e1 - e2 - (e1 - e2 - 53)) with 53 by lia.
  rewrite Z.shiftl_mul_pow2 by lia.
  pose proof (Z_div_mod (Zpos m1 * 2 ^ 53) (Zpos m2) ltac:(lia)) as Hdiv.
  destruct (Z.div_eucl (Zpos m1 * 2 ^ 53) (Zpos m2)) as [q r].
  exists q, r. destruct Hdiv as [Heq Hr].
  split; [assumption |]. split; [assumption |].
  now rewrite xorb_false_r.
Qed.

Lemma pow2_pos (k : Z) : 0 <= k -> 1 <= 2 ^ k.
Proof. intros Hk. pose proof (Z.pow_pos_nonneg 2 k ltac:(lia) Hk). lia. Qed.

Lemma pow2_ge2 (k : Z) : 1 <= k -> 2 <= 2 ^ k.
Proof.
  intros Hk. replace k with (1 + (k - 1)) by lia.
  rewrite Z.pow_add_r by lia. pose proof (pow2_pos (k - 1) ltac:(lia)). lia.
Qed.

Lemma pow2_ge4 (k : Z) : 2 <= k -> 4 <= 2 ^ k.
Proof.
  intros Hk. replace k with (2 + (k - 2)) by lia.
  rewrite Z.pow_add_r by lia. pose proof (pow2_pos (k - 2) ltac:(lia)). lia.
Qed.

(** Comparison of [a * 2^(x+200)] with [b * 2^(y+200)], the exponent
    difference [k = x - (y - 53)] being known. *)
Lemma scaled_le_split (a b x y : Z) :
  -120 <= x <= 120 -> -120 <= y <= 120 ->
  a * 2 ^ (x + 200) <= b * 2 ^ (y + 200) ->
  (0 <= x - (y - 53) -> a * 2 ^ (x - (y - 53)) <= b * 2 ^ 53) /\
  (x - (y - 53) <= 0 -> a <= b * 2 ^ 53 * 2 ^ (y - 53 - x)).
Proof.
  intros Hx Hy Hle. split; intros Hk.
  - assert (HP : 0 < 2 ^ (y + 147)) by (apply Z.pow_pos_nonneg; lia).
    apply (proj2 (Z.mul_le_mono_pos_r _ _ _ HP)).
    rewrite <- !Z.mul_assoc, <- !Z.pow_add_r by lia.
    replace (x - (y - 53) + (y + 147)) with (x + 200) by lia.
    replace (53 + (y + 147)) with (y + 200) by lia. assumption.
  - assert (HP : 0 < 2 ^ (x + 200)) by (apply Z.pow_pos_nonneg; lia).
    apply (proj2 (Z.mul_le_mono_pos_r _ _ _ HP)).
    rewrite <- !Z.mul_assoc, <- !Z.pow_add_r by lia.
    replace (53 + (y - 53 - x + (x + 200))) with (y + 200) by lia. assumption.
Qed.

Lemma scaled_ge_split (a b x y : Z) :
  -120 <= x <= 120 -> -120 <= y <= 120 ->
  b * 2 ^ (y + 200) <= a * 2 ^ (x + 200) ->
  (0 <= x - (y - 53) -> b * 2 ^ 53 <= a * 2 ^ (x - (y - 53))) /\
  (x - (y - 53) <= 0 -> b * 2 ^ 53 * 2 ^ (y - 53 - x) <= a).
Proof.
  intros Hx Hy Hle. split; intros Hk.
  - assert (HP : 0 < 2 ^ (y + 147)) by (apply Z.pow_pos_nonneg; lia).
    apply (proj2 (Z.mul_le_mono_pos_r _ _ _ HP)).
    rewrite <- !Z.mul_assoc, <- !Z.pow_add_r by lia.
    replace (x - (y - 53) + (y + 147)) with (x + 200) by lia.
    replace (53 + (y + 147)) with (y + 200) by lia. assumption.
  - assert (HP : 0 < 2 ^ (x + 200)) by (apply Z.pow_pos_nonneg; lia).
    apply (proj2 (Z.mul_le_mono_pos_r _ _ _ HP)).
    rewrite <- !Z.mul_assoc, <- !Z.pow_add_r by lia.
    replace (53 + (y - 53 - x + (x + 200))) with (y + 200) by lia. assumption.
Qed.

Lemma mul_le_cancel (M t q r : Z) :
  0 < M -> 0 <= r < M -> M * t <= M * q + r -> t <= q.
Proof. intros HM Hr Hle. nia. Qed.

Lemma mul_ge_cancel (M t q r : Z) :
  0 < M -> 0 <= r -> M * q + r <= M * t -> q <= t /\ (r <> 0 -> q < t).
Proof. intros HM Hr Hle. split; [nia | intros Hr0; nia]. Qed.

Lemma new_location_zero (n : Z) : new_location n 0 = loc_Exact.
Proof.
  unfold new_location, new_location_even, new_location_odd.
  now destruct (Z.even n).
Qed.

Lemma half_bounds (q : Z) :
  exists b, q = 2 * (q / 2) + b /\ 0 <= b <= 1 /\ (Z.even q = true <-> b = 0).
Proof.
  exists (q mod 2). pose proof (Z.div_mod q 2 ltac:(lia)).
  pose proof (Z.mod_pos_bound q 2 ltac:(lia)).
  split; [assumption |]. split; [lia |].
  rewrite Zeven_mod. destruct (Z.eqb_spec (q mod 2) 0); split; intros; (lia || congruence).
Qed.

Section Division.

Variables (s : bool) (m1 m2 : positive) (e1 e2 : Z).
Hypothesis Hm1 : mant53 (Zpos m1).
Hypothesis Hm2 : mant53 (Zpos m2).
Hypothesis He1 : -60 <= e1 <= 60.
Hypothesis He2 : -60 <= e2 <= 60.

Lemma SFdiv_bracket :
  exists mz ez,
    SFdiv prec emax (S754_finite s m1 e1) (S754_finite false m2 e2) =
    S754_finite s mz ez /\
    mant53 (Zpos mz) /\
    (forall mb eb,
        mant53 (Zpos mb) -> -60 <= eb <= 60 ->
        Zpos mb * Zpos m2 * 2 ^ (eb + e2 + 200) <= Zpos m1 * 2 ^ (e1 + 200) ->
        below mb eb mz ez) /\
    (forall mb eb,
        mant53 (Zpos mb) -> -60 <= eb <= 60 ->
        Zpos m1 * 2 ^ (e1 + 200) <= Zpos mb * Zpos m2 * 2 ^ (eb + e2 + 200) ->
        below mz ez mb eb).
Proof.
  destruct (SFdiv_finite s m1 m2 e1 e2 Hm1 Hm2 He1 He2)
    as (q & r & Heq & Hr & Hdiv).
  rewrite Hdiv. clear Hdiv.
  remember (e1 - e2 - 53) as E eqn:HE.
  unfold mant53 in Hm1, Hm2.
  assert (Hq : 2 ^ 52 <= q < 2 ^ 54) by (split; nia).
  assert (HEr : -1074 <= E <= 900) by lia.
  assert (Hloc : new_location (Zpos m2) r = loc_Exact <-> r = 0).
  { split; [apply new_location_exact | intros ->; apply new_location_zero]. }
  destruct (Z_lt_le_dec q (2 ^ 53)) as [Hlt | Hge].
  - destruct (binary_round_aux_53 s q E (new_location (Zpos m2) r)
                ltac:(unfold mant53; lia) HEr)
      as (mz & ez & Hres & Hmz & Hshape).
    exists mz, ez. split; [exact Hres |]. split; [exact Hmz |].
    unfold mant53 in Hmz. split.
    + intros mb eb Hmb Heb Hle. unfold mant53 in Hmb. unfold below.
      destruct (scaled_le_split (Zpos mb * Zpos m2) (Zpos m1) (eb + e2) e1
                  ltac:(lia) ltac:(lia)) as [Hk0 _].
      { now rewrite <- Z.add_assoc in *. }
      replace (eb + e2 - (e1 - 53)) with (eb - E) in Hk0 by lia.
      destruct (Z.lt_trichotomy eb E) as [Hc | [Hc | Hc]]; [lia | |].
      * specialize (Hk0 ltac:(lia)). replace (eb - E) with 0 in Hk0 by lia.
        assert (Zpos mb <= q)
          by (apply (mul_le_cancel (Zpos m2) _ q r); lia).
        lia.
      * specialize (Hk0 ltac:(lia)).
        pose proof (pow2_ge2 (eb - E) ltac:(lia)) as HP.
        set (P := 2 ^ (eb - E)) in *.
        assert (Zpos mb * P <= q)
          by (apply (mul_le_cancel (Zpos m2) _ q r); lia).
        nia.
    + intros mb eb Hmb Heb Hle. unfold mant53 in Hmb. unfold below.
      destruct (scaled_ge_split (Zpos mb * Zpos m2) (Zpos m1) (eb + e2) e1
                  ltac:(lia) ltac:(lia)) as [Hk0 Hk1].
      { now rewrite <- Z.add_assoc in *. }
      replace (eb + e2 - (e1 - 53)) with (eb - E) in Hk0, Hk1 by lia.
      replace (e1 - 53 - (eb + e2)) with (E - eb) in Hk1 by lia.
      destruct (Z.lt_trichotomy eb E) as [Hc | [Hc | Hc]].
      * specialize (Hk1 ltac:(lia)).
        pose proof (pow2_ge2 (E - eb) ltac:(lia)) as HP.
        set (P := 2 ^ (E - eb)) in *.
        assert (q * P <= Zpos mb)
          by (apply (mul_ge_cancel (Zpos m2) _ (q * P) (r * P)); nia).
        nia.
      * specialize (Hk0 ltac:(lia)). replace (eb - E) with 0 in Hk0 by lia.
        destruct (mul_ge_cancel (Zpos m2) (Zpos mb) q r) as [Hqb Hstrict]; try lia.
        destruct Hshape as [[-> ->] | [Hinexact [[Hz ->] | [Hover _]]]].
        -- lia.
        -- rewrite Hloc in Hinexact. specialize (Hstrict Hinexact). lia.
        -- rewrite Hloc in Hinexact. specialize (Hstrict Hinexact). lia.
      * lia.
  - destruct (binary_round_aux_54 s q E (new_location (Zpos m2) r)
                ltac:(lia) HEr)
      as (mz & ez & Hres & Hmz & Hshape).
    exists mz, ez. split; [exact Hres |]. split; [exact Hmz |].
    unfold mant53 in Hmz.
    destruct (half_bounds q) as (b & Hhalf & Hb & Heven).
    set (h := q / 2) in *. split.
    + intros mb eb Hmb Heb Hle. unfold mant53 in Hmb. unfold below.
      destruct (scaled_le_split (Zpos mb * Zpos m2) (Zpos m1) (eb + e2) e1
                  ltac:(lia) ltac:(lia)) as [Hk0 _].
      { now rewrite <- Z.add_assoc in *. }
      replace (eb + e2 - (e1 - 53)) with (eb - E) in Hk0 by lia.
      destruct (Z.lt_trichotomy eb (E + 1)) as [Hc | [Hc | Hc]]; [lia | |].
      * specialize (Hk0 ltac:(lia)). replace (eb - E) with 1 in Hk0 by lia.
        assert (Zpos mb * 2 <= q)
          by (apply (mul_le_cancel (Zpos m2) _ q r); lia).
        lia.
      * specialize (Hk0 ltac:(lia)).
        pose proof (pow2_ge4 (eb - E) ltac:(lia)) as HP.
        set (P := 2 ^ (eb - E)) in *.
        assert (Zpos mb * P <= q)
          by (apply (mul_le_cancel (Zpos m2) _ q r); lia).
        nia.
    + intros mb eb Hmb Heb Hle. unfold mant53 in Hmb. unfold below.
      destruct (scaled_ge_split (Zpos mb * Zpos m2) (Zpos m1) (eb + e2) e1
                  ltac:(lia) ltac:(lia)) as [Hk0 Hk1].
      { now rewrite <- Z.add_assoc in *. }
      replace (eb + e2 - (e1 - 53)) with (eb - E) in Hk0, Hk1 by lia.
      replace (e1 - 53 - (eb + e2)) with (E - eb) in Hk1 by lia.
      destruct (Z_lt_le_dec eb E) as [Hc | Hc].
      * specialize (Hk1 ltac:(lia)).
        pose proof (pow2_ge2 (E - eb) ltac:(lia)) as HP.
        set (P := 2 ^ (E - eb)) in *.
        assert (q * P <= Zpos mb)
          by (apply (mul_ge_cancel (Zpos m2) _ (q * P) (r * P)); nia).
        nia.
      * specialize (Hk0 ltac:(lia)).
        destruct (Z.lt_trichotomy eb (E + 1)) as [Hd | [Hd | Hd]].
        -- replace (eb - E) with 0 in Hk0 by lia.
           destruct (mul_ge_cancel (Zpos m2) (Zpos mb) q r) as [Hqb _]; lia.
        -- replace (eb - E) with 1 in Hk0 by lia.
           destruct (mul_ge_cancel (Zpos m2) (Zpos mb * 2) q r)
             as [Hqb Hstrict]; try lia.
           assert (Hup : ~ (new_location (Zpos m2) r = loc_Exact /\
                            Z.even q = true) -> h + 1 <= Zpos mb).
           { intros Hinexact. destruct (Z.eq_dec r 0) as [Hr0 | Hr0].
             - destruct (Z.eq_dec b 0) as [Hb0 | Hb0]; [| lia].
               exfalso. apply Hinexact. split; [now apply Hloc | now apply Heven].
             - specialize (Hstrict Hr0). lia. }
           destruct Hshape as [[-> ->] | [Hinexact [[Hz ->] | [Hover _]]]].
           ++ lia.
           ++ specialize (Hup Hinexact). lia.
           ++ specialize (Hup Hinexact). lia.
        -- lia.
Qed.

End Division.

Lemma SFleb_finite_pos (mb : positive) (eb : Z) (mz : positive) (ez : Z) :
  below mb eb mz ez ->
  SFleb (S754_finite false mb eb) (S754_finite false mz ez) = true.
Proof.
  unfold below, SFleb, SFcompare. intros [Hlt | [-> Hle]].
  - now rewrite (proj2 (Z.compare_lt_iff eb ez) Hlt).
  - rewrite Z.compare_refl. change (Pos.compare_cont Eq mb mz) with (Pos.compare mb mz).
    destruct (Pos.compare_spec mb mz); (reflexivity || lia).
Qed.

Lemma SFleb_finite_neg (mb : positive) (eb : Z) (mz : positive) (ez : Z) :
  below mb eb mz ez ->
  SFleb (S754_finite true mz ez) (S754_finite true mb eb) = true.
Proof.
  unfold below, SFleb, SFcompare. intros [Hlt | [-> Hle]].
  - now rewrite (proj2 (Z.compare_gt_iff ez eb) Hlt).
  - rewrite Z.compare_refl. change (Pos.compare_cont Eq mz mb) with (Pos.compare mz mb).
    destruct (Pos.compare_spec mz mb); (reflexivity || lia).
Qed.

Lemma double_of_Z_pos (z : Z) :
  0 < z <= 2 ^ 53 ->
  exists m e, double_of_Z z = S754_finite false m e /\ represents z m e.
Proof.
  intros Hz. destruct z as [| p | p]; [lia | | lia].
  apply binary_round_represents. lia.
Qed.

Lemma double_of_Z_neg (z : Z) :
  - 2 ^ 53 <= z < 0 ->
  exists m e, double_of_Z z = S754_finite true m e /\ represents (- z) m e.
Proof.
  intros Hz. destruct z as [| p | p]; [lia | lia |].
  apply binary_round_represents. lia.
Qed.

Lemma represents_mul_le (a b c : Z) (ma mb mc : positive) (ea eb ec : Z) :
  represents a ma ea -> represents b mb eb -> represents c mc ec ->
  a * b <= c ->
  Zpos ma * Zpos mb * 2 ^ (ea + eb + 200) <= Zpos mc * 2 ^ (ec + 200).
Proof.
  intros (_ & Hea & Ha) (_ & Heb & Hb) (_ & Hec & Hc) Hle.
  replace (ea + eb + 200) with ((ea + 100) + (eb + 100)) by lia.
  replace (ec + 200) with ((ec + 100) + 100) by lia.
  rewrite (Z.pow_add_r 2 (ea + 100) (eb + 100)) by lia.
  rewrite (Z.pow_add_r 2 (ec + 100) 100) by lia.
  assert (HD : 0 < 2 ^ 100) by lia.
  set (A := 2 ^ (ea + 100)) in *. set (B := 2 ^ (eb + 100)) in *.
  set (C := 2 ^ (ec + 100)) in *. set (D := 2 ^ 100) in *.
  replace (Zpos ma * Zpos mb * (A * B)) with ((Zpos ma * A) * (Zpos mb * B)) by ring.
  replace (Zpos mc * (C * D)) with ((Zpos mc * C) * D) by ring.
  rewrite Ha, Hb, Hc. nia.
Qed.

Lemma represents_mul_ge (a b c : Z) (ma mb mc : positive) (ea eb ec : Z) :
  represents a ma ea -> represents b mb eb -> represents c mc ec ->
  c <= a * b ->
  Zpos mc * 2 ^ (ec + 200) <= Zpos ma * Zpos mb * 2 ^ (ea + eb + 200).
Proof.
  intros (_ & Hea & Ha) (_ & Heb & Hb) (_ & Hec & Hc) Hle.
  replace (ea + eb + 200) with ((ea + 100) + (eb + 100)) by lia.
  replace (ec + 200) with ((ec + 100) + 100) by lia.
  rewrite (Z.pow_add_r 2 (ea + 100) (eb + 100)) by lia.
  rewrite (Z.pow_add_r 2 (ec + 100) 100) by lia.
  assert (HD : 0 < 2 ^ 100) by lia.
  set (A := 2 ^ (ea + 100)) in *. set (B := 2 ^ (eb + 100)) in *.
  set (C := 2 ^ (ec + 100)) in *. set (D := 2 ^ 100) in *.
  replace (Zpos ma * Zpos mb * (A * B)) with ((Zpos ma * A) * (Zpos mb * B)) by ring.
  replace (Zpos mc * (C * D)) with ((Zpos mc * C) * D) by ring.
  rewrite Ha, Hb, Hc. nia.
Qed.

(** The double nearest to [sum / n] is not below a representable lower
    bound of the quotient and not above a representable upper bound. *)
Lemma quotient_lower (sum n lo : Z) :
  0 < n <= 2 ^ 53 -> Z.abs sum <= 2 ^ 53 -> Z.abs lo <= 2 ^ 53 ->
  lo * n <= sum ->
  SFleb (double_of_Z lo) (double_div (double_of_Z sum) (double_of_Z n)) = true.
Proof.
  intros Hn Hsum Hlo Hle.
  destruct (double_of_Z_pos n Hn) as (m2 & e2 & -> & Rn).
  pose proof Rn as (Hm2 & He2 & _).
  destruct (Z.lt_trichotomy sum 0) as [Hs | [-> | Hs]].
  - destruct (double_of_Z_neg sum ltac:(lia)) as (m1 & e1 & -> & Rs).
    pose proof Rs as (Hm1 & He1 & _).
    destruct (SFdiv_bracket true m1 m2 e1 e2 Hm1 Hm2 ltac:(lia) ltac:(lia))
      as (mz & ez & Hdiv & _ & _ & Hupper).
    unfold double_div. rewrite Hdiv.
    assert (lo < 0) by nia.
    destruct (double_of_Z_neg lo ltac:(lia)) as (mb & eb & -> & Rb).
    pose proof Rb as (Hmb & Heb & _).
    apply SFleb_finite_neg, Hupper; [assumption | lia |].
    apply (represents_mul_ge (- lo) n (- sum)); (assumption || lia).
  - destruct (Z.lt_trichotomy lo 0) as [Hl | [-> | Hl]]; [| reflexivity | nia].
    destruct (double_of_Z_neg lo ltac:(lia)) as (mb & eb & -> & _). reflexivity.
  - destruct (double_of_Z_pos sum ltac:(lia)) as (m1 & e1 & -> & Rs).
    pose proof Rs as (Hm1 & He1 & _).
    destruct (SFdiv_bracket false m1 m2 e1 e2 Hm1 Hm2 ltac:(lia) ltac:(lia))
      as (mz & ez & Hdiv & _ & Hlower & _).
    unfold double_div. rewrite Hdiv.
    destruct (Z.lt_trichotomy lo 0) as [Hl | [-> | Hl]].
    + destruct (double_of_Z_neg lo ltac:(lia)) as (mb & eb & -> & _). reflexivity.
    + reflexivity.
    + destruct (double_of_Z_pos lo ltac:(lia)) as (mb & eb & -> & Rb).
      pose proof Rb as (Hmb & Heb & _).
      apply SFleb_finite_pos, Hlower; [assumption | lia |].
      apply (represents_mul_le lo n sum); assumption.
Qed.

Lemma quotient_upper (sum n hi : Z) :
  0 < n <= 2 ^ 53 -> Z.abs sum <= 2 ^ 53 -> Z.abs hi <= 2 ^ 53 ->
  sum <= hi * n ->
  SFleb (double_div (double_of_Z sum) (double_of_Z n)) (double_of_Z hi) = true.
Proof.
  intros Hn Hsum Hhi Hle.
  destruct (double_of_Z_pos n Hn) as (m2 & e2 & -> & Rn).
  pose proof Rn as (Hm2 & He2 & _).
  destruct (Z.lt_trichotomy sum 0) as [Hs | [-> | Hs]].
  - destruct (double_of_Z_neg sum ltac:(lia)) as (m1 & e1 & -> & Rs).
    pose proof Rs as (Hm1 & He1 & _).
    destruct (SFdiv_bracket true m1 m2 e1 e2 Hm1 Hm2 ltac:(lia) ltac:(lia))
      as (mz & ez & Hdiv & _ & Hlower & _).
    unfold double_div. rewrite Hdiv.
    destruct (Z.lt_trichotomy hi 0) as [Hh | [-> | Hh]].
    + destruct (double_of_Z_neg hi ltac:(lia)) as (mb & eb & -> & Rb).
      pose proof Rb as (Hmb & Heb & _).
      apply SFleb_finite_neg, Hlower; [assumption | lia |].
      apply (represents_mul_le (- hi) n (- sum)); (assumption || lia).
    + reflexivity.
    + destruct (double_of_Z_pos hi ltac:(lia)) as (mb & eb & -> & _). reflexivity.
  - destruct (Z.lt_trichotomy hi 0) as [Hh | [-> | Hh]]; [nia | reflexivity |].
    destruct (double_of_Z_pos hi ltac:(lia)) as (mb & eb & -> & _). reflexivity.
  - destruct (double_of_Z_pos sum ltac:(lia)) as (m1 & e1 & -> & Rs).
    pose proof Rs as (Hm1 & He1 & _).
    destruct (SFdiv_bracket false m1 m2 e1 e2 Hm1 Hm2 ltac:(lia) ltac:(lia))
      as (mz & ez & Hdiv & _ & _ & Hupper).
    unfold double_div. rewrite Hdiv.
    assert (0 < hi) by nia.
    destruct (double_of_Z_pos hi ltac:(lia)) as (mb & eb & -> & Rb).
    pose proof Rb as (Hmb & Heb & _).
    apply SFleb_finite_pos, Hupper; [assumption | lia |].
    apply (represents_mul_ge hi n sum); assumption.
Qed.

(** *** Doubles that are integers *)

Lemma represents_to_Z (s : bool) (z : Z) (m : positive) (e : Z) :
  represents z m e ->
  double_to_Z (S754_finite s m e) = Some (if s then - z else z).
Proof.
  intros (_ & He & Hval). unfold double_to_Z.
  destruct (Z.leb_spec 0 e) as [Hpos | Hneg].
  - assert (Hsplit : 2 ^ (e + 100) = 2 ^ e * 2 ^ 100)
      by (rewrite <- Z.pow_add_r by lia; reflexivity).
    rewrite Hsplit in Hval. assert (HD : 0 < 2 ^ 100) by lia.
    set (D := 2 ^ 100) in *.
    assert (Zpos m * 2 ^ e = z) as -> by nia. reflexivity.
  - assert (Hm : Zpos m = z * 2 ^ (- e)).
    { assert (Hsplit : 2 ^ 100 = 2 ^ (e + 100) * 2 ^ (- e))
        by (rewrite <- Z.pow_add_r by lia; f_equal; lia).
      rewrite Hsplit in Hval.
      assert (HD : 0 < 2 ^ (e + 100)) by (apply Z.pow_pos_nonneg; lia).
      set (D := 2 ^ (e + 100)) in *. nia. }
    assert (HP : 0 < 2 ^ (- e)) by (apply Z.pow_pos_nonneg; lia).
    rewrite Hm, Z.mod_mul, Z.div_mul by lia. reflexivity.
Qed.

Lemma double_of_Z_exact (z : Z) :
  Z.abs z <= 2 ^ 53 -> double_to_Z (double_of_Z z) = Some z.
Proof.
  intros Hz. destruct (Z.lt_trichotomy z 0) as [Hneg | [-> | Hpos]].
  - destruct (double_of_Z_neg z ltac:(lia)) as (m & e & -> & Hrep).
    rewrite (represents_to_Z true (- z) m e Hrep). f_equal. lia.
  - reflexivity.
  - destruct (double_of_Z_pos z ltac:(lia)) as (m & e & -> & Hrep).
    now rewrite (represents_to_Z false z m e Hrep).
Qed.

(** ** compute_stats *)

Lemma wrap_llong_add (a b : Z) : wrap_llong (wrap_llong a + b) = wrap_llong (a + b).
Proof.
  unfold wrap_llong, wrap_signed. f_equal.
  replace ((a + 2 ^ (64 - 1)) mod 2 ^ 64 - 2 ^ (64 - 1) + b + 2 ^ (64 - 1))
    with ((a + 2 ^ (64 - 1)) mod 2 ^ 64 + b) by lia.
  rewrite Zplus_mod_idemp_l. f_equal. lia.
Qed.

Lemma wrap_llong_small (z : Z) : - 2 ^ 63 <= z < 2 ^ 63 -> wrap_llong z = z.
Proof.
  intros Hz. unfold wrap_llong, wrap_signed.
  change (64 - 1) with 63. rewrite Z.mod_small; lia.
Qed.

Lemma stats_loop (v : list Z) (s mn mx : Z) :
  fold_left stats_step v (wrap_llong s, mn, mx) =
  (wrap_llong (s + exact_sum v), fold_left Z.min v mn, fold_left Z.max v mx).
Proof.
  revert s mn mx. induction v as [| x v IH]; intros s mn mx.
  - simpl. now rewrite Z.add_0_r.
  - cbn [fold_left stats_step exact_sum fold_right].
    rewrite wrap_llong_add.
    replace (if x <? mn then x else mn) with (Z.min mn x)
      by (destruct (Z.ltb_spec x mn); lia).
    replace (if x >? mx then x else mx) with (Z.max mx x)
      by (destruct (Z.gtb_spec x mx); lia).
    rewrite IH. do 2 f_equal. f_equal. unfold exact_sum. lia.
Qed.

Lemma fold_min_start (hi x : Z) (rest : list Z) :
  x <= hi -> fold_left Z.min (x :: rest) hi = fold_right Z.min x rest.
Proof.
  intros Hx. cbn [fold_left]. rewrite Z.min_r by assumption.
  rewrite fold_symmetric by (intros; lia). reflexivity.
Qed.

Lemma fold_max_start (lo x : Z) (rest : list Z) :
  lo <= x -> fold_left Z.max (x :: rest) lo = fold_right Z.max x rest.
Proof.
  intros Hx. cbn [fold_left]. rewrite Z.max_r by assumption.
  rewrite fold_symmetric by (intros; lia). reflexivity.
Qed.

Lemma smallest_spec (v : list Z) :
  v <> [] -> In (smallest v) v /\ (forall x, In x v -> smallest v <= x).
Proof.
  destruct v as [| x rest]; [congruence | intros _]. unfold smallest.
  induction rest as [| y rest [Hin Hle]]; simpl.
  - split; [now left | intros z [-> | []]; lia].
  - split.
    + destruct (Z.min_spec y (fold_right Z.min x rest)) as [[_ ->] | [_ ->]].
      * right. now left.
      * destruct Hin as [Hin | Hin]; [now left | right; now right].
    + intros z [-> | [-> | Hz]].
      * specialize (Hle z (or_introl eq_refl)). lia.
      * lia.
      * specialize (Hle z (or_intror Hz)). lia.
Qed.

Lemma largest_spec (v : list Z) :
  v <> [] -> In (largest v) v /\ (forall x, In x v -> x <= largest v).
Proof.
  destruct v as [| x rest]; [congruence | intros _]. unfold largest.
  induction rest as [| y rest [Hin Hle]]; simpl.
  - split; [now left | intros z [-> | []]; lia].
  - split.
    + destruct (Z.max_spec y (fold_right Z.max x rest)) as [[_ ->] | [_ ->]].
      * destruct Hin as [Hin | Hin]; [now left | right; now right].
      * right. now left.
    + intros z [-> | [-> | Hz]].
      * specialize (Hle z (or_introl eq_refl)). lia.
      * lia.
      * specialize (Hle z (or_intror Hz)). lia.
Qed.

(** What [compute_stats] returns on a non-empty vector of [int]: the sum
    is the exact sum reduced to 64 bits. *)
Lemma compute_stats_eval (v : list Z) :
  v <> [] -> Forall int_range v ->
  compute_stats v =
  mkStats (double_div (double_of_Z (wrap_llong (exact_sum v)))
                      (double_of_Z (Z.of_nat (length v))))
          (double_of_Z (smallest v))
          (double_of_Z (largest v)).
Proof.
  intros Hne Hrange. destruct v as [| x rest]; [congruence |].
  unfold compute_stats. change 0 with (wrap_llong 0) at 1.
  rewrite stats_loop.
  assert (Hx : int_range x) by (now inversion Hrange).
  unfold int_range in Hx.
  rewrite fold_min_start, fold_max_start by lia.
  reflexivity.
Qed.

Lemma exact_sum_bounds (v : list Z) :
  Forall int_range v ->
  INT_MIN * Z.of_nat (length v) <= exact_sum v <= INT_MAX * Z.of_nat (length v).
Proof.
  unfold int_range, INT_MIN, INT_MAX.
  induction 1 as [| x v Hx _ IH]; cbn [exact_sum fold_right length].
  - lia.
  - fold (exact_sum v). lia.
Qed.

Lemma exact_sum_between (v : list Z) :
  v <> [] ->
  smallest v * Z.of_nat (length v) <= exact_sum v <= largest v * Z.of_nat (length v).
Proof.
  intros Hne.
  destruct (smallest_spec v Hne) as [_ Hlo]. destruct (largest_spec v Hne) as [_ Hhi].
  revert Hlo Hhi. generalize (smallest v) (largest v). clear Hne. intros lo hi.
  induction v as [| x v IH]; intros Hlo Hhi; cbn [exact_sum fold_right length].
  - lia.
  - fold (exact_sum v).
    specialize (IH (fun z Hz => Hlo z (or_intror Hz)) (fun z Hz => Hhi z (or_intror Hz))).
    pose proof (Hlo x (or_introl eq_refl)). pose proof (Hhi x (or_introl eq_refl)).
    lia.
Qed.

Lemma int_range_abs (x : Z) : int_range x -> Z.abs x <= 2 ^ 53.
Proof. unfold int_range, INT_MIN, INT_MAX. lia. Qed.

Lemma firstn_int_range (k : nat) (v : list Z) :
  Forall int_range v -> Forall int_range (firstn k v).
Proof.
  rewrite !Forall_forall. intros Hall x Hx. apply Hall.
  rewrite <- (firstn_skipn k v). apply in_or_app. now left.
Qed.

(** C2, with the bound on the sum made explicit.  [compute_stats []] is
    the all-zero [Stats].  For every non-empty vector of [int], whatever
    its length, [min] is the smallest and [max] the largest element of
    [v], both converted exactly.  The [mean] is the double quotient of
    the exact sum (converted to double) by the count whenever the exact
    sum is in the range of [long long]; that is the case for every vector
    of at most [2^32] elements, where moreover no partial sum leaves the
    range of [long long]. *)
Theorem compute_stats_spec :
  compute_stats [] = mkStats double_zero double_zero double_zero /\
  forall v : list Z,
    v <> [] ->
    Forall int_range v ->
    min (compute_stats v) = double_of_Z (smallest v) /\
    max (compute_stats v) = double_of_Z (largest v) /\
    In (smallest v) v /\ (forall x, In x v -> smallest v <= x) /\
    In (largest v) v /\ (forall x, In x v -> x <= largest v) /\
    double_to_Z (min (compute_stats v)) = Some (smallest v) /\
    double_to_Z (max (compute_stats v)) = Some (largest v) /\
    (- 2 ^ 63 <= exact_sum v < 2 ^ 63 ->
     mean (compute_stats v) =
     double_div (double_of_Z (exact_sum v))
                (double_of_Z (Z.of_nat (length v)))) /\
    (Z.of_nat (length v) <= 2 ^ 32 ->
     (forall k, - 2 ^ 63 <= exact_sum (firstn k v) < 2 ^ 63) /\
     compute_stats v =
     mkStats (double_div (double_of_Z (exact_sum v))
                         (double_of_Z (Z.of_nat (length v))))
             (double_of_Z (smallest v))
             (double_of_Z (largest v))).
Proof.
  split; [reflexivity |]. intros v Hne Hrange.
  destruct (smallest_spec v Hne) as [Hsin Hsle].
  destruct (largest_spec v Hne) as [Hlin Hlle].
  pose proof (proj1 (Forall_forall int_range v) Hrange) as Hall.
  rewrite compute_stats_eval by assumption. cbn [mean min max].
  split; [reflexivity |]. split; [reflexivity |].
  split; [exact Hsin |]. split; [exact Hsle |].
  split; [exact Hlin |]. split; [exact Hlle |].
  split; [apply double_of_Z_exact, int_range_abs, Hall, Hsin |].
  split; [apply double_of_Z_exact, int_range_abs, Hall, Hlin |].
  split.
  - intros Hfit. now rewrite wrap_llong_small.
  - intros Hlen.
    assert (Hpartial : forall k, - 2 ^ 63 <= exact_sum (firstn k v) < 2 ^ 63).
    { intros k.
      pose proof (exact_sum_bounds _ (firstn_int_range k v Hrange)) as Hb.
      rewrite length_firstn in Hb. unfold INT_MIN, INT_MAX in Hb. lia. }
    split; [exact Hpartial |].
    rewrite wrap_llong_small
      by (rewrite <- (firstn_all v); apply Hpartial).
    reflexivity.
Qed.

Lemma compute_stats_spec_witness :
  compute_stats [1; 2; 4] =
  mkStats (double_div (double_of_Z 7) (double_of_Z 3))
          (double_of_Z 1) (double_of_Z 4).
Proof.
  assert (Hne : [1; 2; 4] <> []) by discriminate.
  assert (Hrange : Forall int_range [1; 2; 4])
    by (repeat constructor; unfold int_range, INT_MIN, INT_MAX; lia).
  assert (Hlen : Z.of_nat (length [1; 2; 4]) <= 2 ^ 32) by (simpl; lia).
  destruct (proj2 compute_stats_spec [1; 2; 4] Hne Hrange)
    as (_ & _ & _ & _ & _ & _ & _ & _ & _ & Hfull).
  exact (proj2 (Hfull Hlen)).
Defined.

Lemma exact_sum_repeat (x : Z) (n : nat) :
  exact_sum (repeat x n) = Z.of_nat n * x.
Proof.
  induction n as [| n IH]; [reflexivity |].
  cbn [repeat exact_sum fold_right]. fold (exact_sum (repeat x n)). lia.
Qed.

Lemma repeat_nonempty (x : Z) (n : nat) : n <> 0%nat -> repeat x n <> [].
Proof. destruct n; [congruence | discriminate]. Qed.

Lemma repeat_int_range (x : Z) (n : nat) :
  int_range x -> Forall int_range (repeat x n).
Proof.
  intros Hx. apply Forall_forall. intros y Hy.
  now rewrite (repeat_spec n x y Hy).
Qed.

Lemma largest_repeat (x : Z) (n : nat) : n <> 0%nat -> largest (repeat x n) = x.
Proof.
  intros Hn. destruct (largest_spec (repeat x n) (repeat_nonempty x n Hn)) as [Hin _].
  exact (repeat_spec n x _ Hin).
Qed.

(** The bound of C2 on the sum is needed: on [2^32 + 1] copies of
    [INT_MIN] the running sum leaves the range of [long long], and the
    mean returned is not the quotient of the exact sum by the count. *)
Lemma compute_stats_overflow :
  overflow_input <> [] /\
  Forall int_range overflow_input /\
  exact_sum overflow_input < - 2 ^ 63 /\
  mean (compute_stats overflow_input) <>
  double_div (double_of_Z (exact_sum overflow_input))
             (double_of_Z (Z.of_nat (length overflow_input))).
Proof.
  assert (Hn : Z.to_nat 4294967297 <> 0%nat) by lia.
  assert (Hne : overflow_input <> []) by (apply repeat_nonempty; exact Hn).
  assert (Hrange : Forall int_range overflow_input).
  { apply repeat_int_range. unfold int_range, INT_MIN, INT_MAX. lia. }
  split; [exact Hne |]. split; [exact Hrange |].
  rewrite (compute_stats_eval _ Hne Hrange). cbn [mean].
  unfold overflow_input.
  rewrite exact_sum_repeat, repeat_length, Z2Nat.id by lia.
  split; [lia |]. vm_compute. discriminate.
Qed.

(** ** The mean between the minimum and the maximum *)

(** C3, with the bound on the sum made explicit.  For a non-empty vector
    of [int] with at most [2^22] elements, or with at most [2^32] elements
    and an exact sum of magnitude at most [2^53], [min <= mean <= max]
    holds for the doubles [compute_stats] returns. *)
Theorem mean_between_min_max :
  forall v : list Z,
    v <> [] ->
    Forall int_range v ->
    (Z.of_nat (length v) <= 2 ^ 22 \/
     (Z.of_nat (length v) <= 2 ^ 32 /\ Z.abs (exact_sum v) <= 2 ^ 53)) ->
    double_le (min (compute_stats v)) (mean (compute_stats v)) = true /\
    double_le (mean (compute_stats v)) (max (compute_stats v)) = true.
Proof.
  intros v Hne Hrange Hsize.
  pose proof (exact_sum_bounds v Hrange) as Hb. unfold INT_MIN, INT_MAX in Hb.
  assert (Hlen : 0 < Z.of_nat (length v) <= 2 ^ 32).
  { destruct v; [congruence |]. simpl length in *. lia. }
  assert (Hsum : Z.abs (exact_sum v) <= 2 ^ 53) by lia.
  destruct (smallest_spec v Hne) as [Hsin _].
  destruct (largest_spec v Hne) as [Hlin _].
  pose proof (proj1 (Forall_forall int_range v) Hrange) as Hall.
  pose proof (exact_sum_between v Hne) as [Hlo Hhi].
  rewrite compute_stats_eval by assumption. cbn [mean min max].
  rewrite wrap_llong_small by lia. unfold double_le. split.
  - apply quotient_lower; try lia. apply int_range_abs, Hall, Hsin.
  - apply quotient_upper; try lia. apply int_range_abs, Hall, Hlin.
Qed.

Lemma mean_between_min_max_witness :
  double_le (min (compute_stats [1; 2; 4])) (mean (compute_stats [1; 2; 4])) = true /\
  double_le (mean (compute_stats [1; 2; 4])) (max (compute_stats [1; 2; 4])) = true.
Proof.
  apply (mean_between_min_max [1; 2; 4]).
  - discriminate.
  - repeat constructor; unfold int_range, INT_MIN, INT_MAX; lia.
  - left. simpl. lia.
Defined.

(** The bound of C3 is needed: on [2^22 + 1] copies of [INT_MAX] the
    sum is rounded up when it is converted to double, and the mean
    returned is above the maximum. *)
Lemma mean_above_max :
  rounding_input <> [] /\
  Forall int_range rounding_input /\
  double_le (mean (compute_stats rounding_input))
            (max (compute_stats rounding_input)) = false.
Proof.
  assert (Hn : Z.to_nat 4194305 <> 0%nat) by lia.
  assert (Hne : rounding_input <> []) by (apply repeat_nonempty; exact Hn).
  assert (Hrange : Forall int_range rounding_input).
  { apply repeat_int_range. unfold int_range, INT_MIN, INT_MAX. lia. }
  split; [exact Hne |]. split; [exact Hrange |].
  rewrite (compute_stats_eval _ Hne Hrange). cbn [mean max].
  unfold rounding_input.
  rewrite exact_sum_repeat, repeat_length.
  rewrite (largest_repeat 2147483647 (Z.to_nat 4194305) Hn), Z2Nat.id by lia.
  vm_compute. reflexivity.
Qed.

(** * Part III: further properties of the program *)

(** ** compute_stats: order of the input, extreme values, integer mean *)

Lemma exact_sum_perm (v w : list Z) :
  Permutation v w -> exact_sum v = exact_sum w.
Proof.
  unfold exact_sum. induction 1; simpl; lia.
Qed.

Lemma smallest_unique (v : list Z) (m : Z) :
  In m v -> (forall x, In x v -> m <= x) -> smallest v = m.
Proof.
  intros Hin Hle. assert (Hne : v <> []) by (intros ->; inversion Hin).
  destruct (smallest_spec v Hne) as [Hsin Hsle].
  specialize (Hle _ Hsin). specialize (Hsle _ Hin). lia.
Qed.

Lemma largest_unique (v : list Z) (m : Z) :
  In m v -> (forall x, In x v -> x <= m) -> largest v = m.
Proof.
  intros Hin Hle. assert (Hne : v <> []) by (intros ->; inversion Hin).
  destruct (largest_spec v Hne) as [Hlin Hlle].
  specialize (Hle _ Hlin). specialize (Hlle _ Hin). lia.
Qed.

(** X1. [compute_stats] does not depend on the order of the elements:
    two vectors of [int] that are permutations of one another, with at
    most [2^32] elements, give the same [Stats]. *)
Theorem compute_stats_permutation :
  forall v w : list Z,
    Permutation v w ->
    Forall int_range v ->
    Z.of_nat (length v) <= 2 ^ 32 ->
    compute_stats v = compute_stats w.
Proof.
  intros v w Hperm Hrange Hlen.
  destruct v as [| x v'].
  - apply Permutation_nil in Hperm. now subst.
  - assert (Hv : x :: v' <> []) by discriminate.
    assert (Hw : w <> []).
    { intros ->. apply Permutation_sym, Permutation_nil in Hperm. discriminate. }
    assert (Hrange' : Forall int_range w)
      by (eapply Permutation_Forall; eassumption).
    rewrite (compute_stats_eval _ Hv Hrange), (compute_stats_eval _ Hw Hrange').
    rewrite (exact_sum_perm _ _ Hperm), (Permutation_length Hperm).
    destruct (smallest_spec w Hw) as [Hsin Hsle].
    destruct (largest_spec w Hw) as [Hlin Hlle].
    rewrite (smallest_unique (x :: v') (smallest w)), (largest_unique (x :: v') (largest w)).
    + reflexivity.
    + eapply Permutation_in; [apply Permutation_sym|]; eassumption.
    + intros y Hy. apply Hlle. eapply Permutation_in; eassumption.
    + eapply Permutation_in; [apply Permutation_sym|]; eassumption.
    + intros y Hy. apply Hsle. eapply Permutation_in; eassumption.
Qed.

Lemma compute_stats_permutation_witness :
  compute_stats [3; 1; 2] = compute_stats [1; 2; 3].
Proof.
  apply (compute_stats_permutation [3; 1; 2] [1; 2; 3]).
  - apply perm_trans with [1; 3; 2]; [| apply perm_skip, perm_swap].
    apply perm_swap.
  - repeat constructor; unfold int_range, INT_MIN, INT_MAX; lia.
  - simpl. lia.
Defined.

(** Conversion of integers of magnitude at most [2^53] keeps the order. *)
Lemma represents_le (a b : Z) (ma mb : positive) (ea eb : Z) :
  represents a ma ea -> represents b mb eb -> a <= b -> below ma ea mb eb.
Proof.
  intros (Hma & Hea & Ha) (Hmb & Heb & Hb) Hle. unfold below, mant53 in *.
  assert (HD : 0 < 2 ^ 100) by lia.
  assert (Hval : Zpos ma * 2 ^ (ea + 100) <= Zpos mb * 2 ^ (eb + 100)) by nia.
  assert (HP : 0 < 2 ^ (eb + 100)) by (apply Z.pow_pos_nonneg; lia).
  destruct (Z.lt_trichotomy ea eb) as [Hlt | [Heq | Hgt]].
  - now left.
  - right. subst ea. split; [reflexivity | nia].
  - exfalso.
    assert (Hsplit : 2 ^ (ea + 100) = 2 ^ (eb + 100) * 2 ^ (ea - eb))
      by (rewrite <- Z.pow_add_r by lia; f_equal; lia).
    pose proof (pow2_ge2 (ea - eb) ltac:(lia)) as HQ.
    rewrite Hsplit in Hval.
    set (P := 2 ^ (eb + 100)) in *. set (Q := 2 ^ (ea - eb)) in *.
    assert (Zpos ma * Q <= Zpos mb) by nia.
    nia.
Qed.

Lemma double_of_Z_le (a b : Z) :
  Z.abs a <= 2 ^ 53 -> Z.abs b <= 2 ^ 53 -> a <= b ->
  double_le (double_of_Z a) (double_of_Z b) = true.
Proof.
  intros Ha Hb Hle. unfold double_le.
  destruct (Z.lt_trichotomy a 0) as [Han | [-> | Hap]].
  - destruct (double_of_Z_neg a ltac:(lia)) as (ma & ea & -> & Ra).
    destruct (Z.lt_trichotomy b 0) as [Hbn | [-> | Hbp]].
    + destruct (double_of_Z_neg b ltac:(lia)) as (mb & eb & -> & Rb).
      apply SFleb_finite_neg. apply (represents_le (- b) (- a)); (assumption || lia).
    + reflexivity.
    + destruct (double_of_Z_pos b ltac:(lia)) as (mb & eb & -> & Rb). reflexivity.
  - destruct (Z.lt_trichotomy b 0) as [Hbn | [-> | Hbp]]; [lia | reflexivity |].
    destruct (double_of_Z_pos b ltac:(lia)) as (mb & eb & -> & Rb). reflexivity.
  - destruct (double_of_Z_pos a ltac:(lia)) as (ma & ea & -> & Ra).
    destruct (double_of_Z_pos b ltac:(lia)) as (mb & eb & -> & Rb).
    apply SFleb_finite_pos. now apply (represents_le a b).
Qed.

(** X2. For every non-empty vector of [int], whatever its length, the
    [min] that [compute_stats] returns is at most the [max] it returns. *)
Theorem compute_stats_min_le_max :
  forall v : list Z,
    v <> [] ->
    Forall int_range v ->
    double_le (min (compute_stats v)) (max (compute_stats v)) = true.
Proof.
  intros v Hne Hrange.
  rewrite (compute_stats_eval _ Hne Hrange). cbn [min max].
  destruct (smallest_spec v Hne) as [Hsin Hsle].
  destruct (largest_spec v Hne) as [Hlin Hlle].
  pose proof (proj1 (Forall_forall int_range v) Hrange) as Hall.
  apply double_of_Z_le.
  - apply int_range_abs, Hall, Hsin.
  - apply int_range_abs, Hall, Hlin.
  - apply Hsle, Hlin.
Qed.

Lemma compute_stats_min_le_max_witness :
  double_le (min (compute_stats [4; -7; 9])) (max (compute_stats [4; -7; 9])) = true.
Proof.
  apply (compute_stats_min_le_max [4; -7; 9]).
  - discriminate.
  - repeat constructor; unfold int_range, INT_MIN, INT_MAX; lia.
Defined.

Lemma SFleb_antisym (x : double) (s : bool) (m : positive) (e : Z) :
  SFleb x (S754_finite s m e) = true ->
  SFleb (S754_finite s m e) x = true ->
  x = S754_finite s m e.
Proof.
  unfold SFleb, SFcompare.
  destruct x as [sx | sx | | sx mx ex]; try (destruct sx, s; discriminate);
    try discriminate.
  change (Pos.compare_cont Eq mx m) with (Pos.compare mx m).
  change (Pos.compare_cont Eq m mx) with (Pos.compare m mx).
  rewrite (Z.compare_antisym ex e), (Pos.compare_antisym mx m).
  destruct sx, s; try discriminate;
    destruct (Z.compare_spec ex e) as [-> | Hlt | Hgt]; cbn; try discriminate;
    destruct (Pos.compare_spec mx m) as [-> | Hlt | Hgt]; cbn;
    try discriminate; reflexivity.
Qed.

(** The quotient of two integers that divide exactly is computed exactly. *)
Lemma quotient_exact (n q : Z) :
  0 < n <= 2 ^ 53 -> Z.abs (q * n) <= 2 ^ 53 ->
  double_div (double_of_Z (q * n)) (double_of_Z n) = double_of_Z q.
Proof.
  intros Hn Hsum.
  assert (Hq : Z.abs q <= 2 ^ 53) by nia.
  destruct (Z.eq_dec q 0) as [-> | Hq0].
  - destruct (double_of_Z_pos n Hn) as (m & e & -> & _). reflexivity.
  - pose proof (quotient_lower (q * n) n q Hn Hsum Hq ltac:(lia)) as Hlo.
    pose proof (quotient_upper (q * n) n q Hn Hsum Hq ltac:(lia)) as Hhi.
    destruct (Z.lt_trichotomy q 0) as [Hneg | [Hz | Hpos]]; [| lia |].
    + destruct (double_of_Z_neg q ltac:(lia)) as (m & e & Hdq & _).
      rewrite Hdq in *. now apply SFleb_antisym.
    + destruct (double_of_Z_pos q ltac:(lia)) as (m & e & Hdq & _).
      rewrite Hdq in *. now apply SFleb_antisym.
Qed.

(** X3. When the exact sum of a non-empty vector of [int] (at most [2^32]
    elements, sum of magnitude at most [2^53]) is a multiple [q * count]
    of the count, the [mean] returned is exactly the integer [q]; in
    particular a one-element vector [[x]] gives [mean = min = max = x]. *)
Theorem compute_stats_integer_mean :
  (forall (v : list Z) (q : Z),
      v <> [] ->
      Forall int_range v ->
      Z.of_nat (length v) <= 2 ^ 32 ->
      Z.abs (exact_sum v) <= 2 ^ 53 ->
      exact_sum v = q * Z.of_nat (length v) ->
      mean (compute_stats v) = double_of_Z q /\
      double_to_Z (mean (compute_stats v)) = Some q) /\
  (forall x : Z,
      int_range x ->
      compute_stats [x] =
      mkStats (double_of_Z x) (double_of_Z x) (double_of_Z x)).
Proof.
  assert (Hgen : forall (v : list Z) (q : Z),
             v <> [] -> Forall int_range v ->
             Z.of_nat (length v) <= 2 ^ 32 ->
             Z.abs (exact_sum v) <= 2 ^ 53 ->
             exact_sum v = q * Z.of_nat (length v) ->
             mean (compute_stats v) = double_of_Z q).
  { intros v q Hne Hrange Hlen Hsum Hq.
    assert (Hpos : 0 < Z.of_nat (length v))
      by (destruct v; [congruence | simpl length; lia]).
    rewrite (compute_stats_eval _ Hne Hrange). cbn [mean].
    rewrite wrap_llong_small by lia. rewrite Hq.
    apply quotient_exact; [lia | now rewrite <- Hq]. }
  split.
  - intros v q Hne Hrange Hlen Hsum Hq.
    rewrite (Hgen v q) by assumption. split; [reflexivity |].
    apply double_of_Z_exact.
    assert (0 < Z.of_nat (length v))
      by (destruct v; [congruence | simpl length; lia]).
    nia.
  - intros x Hx.
    assert (Hne : [x] <> []) by discriminate.
    assert (Hrange : Forall int_range [x])
      by (constructor; [assumption | constructor]).
    assert (Hsum : exact_sum [x] = x) by (unfold exact_sum; simpl; lia).
    assert (Hmean : mean (compute_stats [x]) = double_of_Z x).
    { apply Hgen; try assumption.
      - simpl. lia.
      - rewrite Hsum. now apply int_range_abs.
      - rewrite Hsum. simpl. lia. }
    rewrite (compute_stats_eval _ Hne Hrange) in Hmean |- *.
    cbn [mean] in Hmean. rewrite Hmean. reflexivity.
Qed.

Lemma compute_stats_integer_mean_witness :
  mean (compute_stats [2; 4; 9]) = double_of_Z 5 /\
  double_to_Z (mean (compute_stats [2; 4; 9])) = Some 5.
Proof.
  apply (proj1 compute_stats_integer_mean [2; 4; 9] 5).
  - discriminate.
  - repeat constructor; unfold int_range, INT_MIN, INT_MAX; lia.
  - simpl. lia.
  - vm_compute. discriminate.
  - reflexivity.
Defined.

(** ** is_strictly_increasing: sortedness of the tail, prefixes, push_back *)

Lemma sorted_adjacent (t : list Z) :
  Sorted Z.lt t <->
  forall i, (1 <= i < length t)%nat -> nth (i - 1) t 0 < nth i t 0.
Proof.
  induction t as [| a t IH].
  - split; [intros _ i Hi; simpl in Hi; lia | constructor].
  - split.
    + intros Hs i Hi. apply Sorted_inv in Hs as [Hs Hhd].
      destruct i as [| [| i]]; [lia | |].
      * simpl. destruct t as [| b t]; [simpl in Hi; lia |].
        now apply HdRel_inv in Hhd.
      * pose proof (proj1 IH Hs (S i) ltac:(simpl in Hi; lia)) as Hstep.
        simpl in Hstep. simpl. now rewrite Nat.sub_0_r in Hstep.
    + intros Hadj. constructor.
      * apply IH. intros i Hi. specialize (Hadj (S i) ltac:(simpl; lia)).
        destruct i as [| i]; [lia |]. simpl in Hadj. simpl.
        now rewrite Nat.sub_0_r in *.
      * destruct t as [| b t]; constructor.
        apply (Hadj 1%nat). simpl. lia.
Qed.

(** X4. [is_strictly_increasing v] is true exactly when [v] without its
    first element is strictly increasing; hence it is true on every
    strictly increasing vector. *)
Theorem is_strictly_increasing_tail_sorted :
  forall v : list Z,
    (is_strictly_increasing v = true <-> Sorted Z.lt (tl v)) /\
    (Sorted Z.lt v -> is_strictly_increasing v = true).
Proof.
  intros v.
  assert (Hiff : is_strictly_increasing v = true <-> Sorted Z.lt (tl v)).
  { rewrite is_strictly_increasing_iff, sorted_adjacent.
    destruct v as [| a t]; simpl tl; simpl length.
    - split; intros _ i Hi; simpl in Hi; lia.
    - split; intros Hall i Hi.
      + specialize (Hall (S i) ltac:(lia)). unfold vector_at in Hall.
        destruct i as [| i]; [lia |]. simpl in Hall. simpl.
        now rewrite Nat.sub_0_r in *.
      + destruct i as [| [| i]]; [lia | lia |].
        specialize (Hall (S i) ltac:(lia)). unfold vector_at. simpl.
        simpl in Hall. now rewrite Nat.sub_0_r in Hall. }
  split; [exact Hiff |].
  intros Hsorted. apply Hiff. destruct v as [| a t]; [constructor |].
  now apply Sorted_inv in Hsorted.
Qed.

Lemma is_strictly_increasing_tail_sorted_witness :
  is_strictly_increasing [1; 2; 5; 9] = true.
Proof.
  apply (proj2 (is_strictly_increasing_tail_sorted [1; 2; 5; 9])).
  repeat constructor.
Defined.

(** X5. Removing trailing elements keeps a positive answer, and after
    [push_back x] on a vector of at least two elements the answer is
    positive exactly when it was positive before and [x] is greater than
    the former last element. *)
Theorem is_strictly_increasing_prefix_push_back :
  (forall (v : list Z) (k : nat),
      is_strictly_increasing v = true ->
      is_strictly_increasing (firstn k v) = true) /\
  (forall (v : list Z) (x : Z),
      (2 <= length v)%nat ->
      (is_strictly_increasing (v ++ [x]) = true <->
       is_strictly_increasing v = true /\
       vector_at v (length v - 1) < x)).
Proof.
  split.
  - intros v k. rewrite !is_strictly_increasing_iff. intros Hall j Hj.
    rewrite length_firstn in Hj. unfold vector_at.
    rewrite !nth_firstn.
    destruct (Nat.ltb_spec (j - 1) k); [| lia].
    destruct (Nat.ltb_spec j k); [| lia].
    apply Hall. lia.
  - intros v x Hlen. rewrite !is_strictly_increasing_iff.
    rewrite length_app. simpl length. unfold vector_at. split.
    + intros Hall. split.
      * intros j Hj. specialize (Hall j ltac:(lia)).
        now rewrite !app_nth1 in Hall by lia.
      * specialize (Hall (length v) ltac:(lia)).
        rewrite app_nth1, app_nth2, Nat.sub_diag in Hall by lia. exact Hall.
    + intros [Hall Hlast] j Hj.
      destruct (Nat.eq_dec j (length v)) as [-> | Hne].
      * now rewrite app_nth1, app_nth2, Nat.sub_diag by lia.
      * rewrite !app_nth1 by lia. apply Hall. lia.
Qed.

Lemma is_strictly_increasing_prefix_push_back_witness :
  is_strictly_increasing (firstn 3%nat [5; 1; 2; 3]) = true /\
  (is_strictly_increasing ([5; 1; 2] ++ [3]) = true <->
   is_strictly_increasing [5; 1; 2] = true /\
   vector_at [5; 1; 2] (length [5; 1; 2] - 1) < 3).
Proof.
  split.
  - apply (proj1 is_strictly_increasing_prefix_push_back [5; 1; 2; 3] 3%nat).
    reflexivity.
  - apply (proj2 is_strictly_increasing_prefix_push_back [5; 1; 2] 3).
    simpl. lia.
Defined.

(** ** add and multiply in the report of main *)

Lemma wrap_int_small (z : Z) : int_range z -> wrap_int z = z.
Proof.
  unfold int_range, INT_MIN, INT_MAX, wrap_int, wrap_signed. intros Hz.
  change (32 - 1) with 31. rewrite Z.mod_small; lia.
Qed.

Lemma fold_add_exact (v : list Z) (acc : Z) :
  (forall k, int_range (acc + exact_sum (firstn k v))) ->
  fold_left add v acc = acc + exact_sum v.
Proof.
  revert acc. induction v as [| x v IH]; intros acc Hfit.
  - unfold exact_sum. simpl. lia.
  - cbn [fold_left]. unfold add at 2.
    pose proof (Hfit 1%nat) as H1. unfold exact_sum in H1. simpl in H1.
    rewrite wrap_int_small by (now replace (acc + x) with (acc + (x + 0)) by lia).
    rewrite IH.
    + unfold exact_sum. simpl. lia.
    + intros k. specialize (Hfit (S k)). unfold exact_sum in *. simpl in Hfit.
      now replace (acc + x + fold_right Z.add 0 (firstn k v))
        with (acc + (x + fold_right Z.add 0 (firstn k v))) by lia.
Qed.

Lemma wrap_int_add (a b : Z) : wrap_int (wrap_int a + b) = wrap_int (a + b).
Proof.
  unfold wrap_int, wrap_signed. f_equal.
  replace ((a + 2 ^ (32 - 1)) mod 2 ^ 32 - 2 ^ (32 - 1) + b + 2 ^ (32 - 1))
    with ((a + 2 ^ (32 - 1)) mod 2 ^ 32 + b) by lia.
  rewrite Zplus_mod_idemp_l. f_equal. lia.
Qed.

Lemma fold_add_wrap (v : list Z) (acc : Z) :
  fold_left add v (wrap_int acc) = wrap_int (acc + exact_sum v).
Proof.
  revert acc. induction v as [| x v IH]; intros acc.
  - unfold exact_sum. simpl. now rewrite Z.add_0_r.
  - cbn [fold_left]. unfold add at 2. rewrite wrap_int_add, IH.
    f_equal. unfold exact_sum. simpl. lia.
Qed.

(** X6. The loop of [main] that sums the values with [add] yields the
    exact sum whenever no partial sum leaves the range of [int], and
    [multiply] then yields twice the sum whenever that is an [int]. *)
Theorem sum_via_add_exact :
  forall v : list Z,
    (forall k, int_range (exact_sum (firstn k v))) ->
    fold_left add v 0 = exact_sum v /\
    (int_range (2 * exact_sum v) ->
     multiply (fold_left add v 0) 2 = 2 * exact_sum v).
Proof.
  intros v Hfit.
  assert (Hsum : fold_left add v 0 = exact_sum v).
  { rewrite fold_add_exact; [lia | intros k; apply Hfit]. }
  split; [exact Hsum |].
  intros Hdouble. rewrite Hsum. unfold multiply.
  rewrite wrap_int_small; [lia |].
  now replace (exact_sum v * 2) with (2 * exact_sum v) by lia.
Qed.

Lemma sum_via_add_exact_witness :
  fold_left add [1; 2; 4] 0 = 7 /\ multiply (fold_left add [1; 2; 4] 0) 2 = 14.
Proof.
  assert (Hfit : forall k, int_range (exact_sum (firstn k [1; 2; 4]))).
  { intros [| [| [| [| k]]]]; vm_compute; split; discriminate. }
  destruct (sum_via_add_exact [1; 2; 4] Hfit) as [Hsum Hdouble].
  split; [exact Hsum |].
  apply Hdouble. vm_compute. split; discriminate.
Defined.

(** ** parse_args: what it returns and what it prints *)

Lemma stoi_ok_range (tok : std_string) (n : Z) : stoi tok = ok n -> int_range n.
Proof.
  unfold stoi.
  destruct (match skip_spaces tok with
            | [] => (false, skip_spaces tok)
            | c :: rest =>
                if Ascii.eqb c "-" then (true, rest)
                else if Ascii.eqb c "+" then (false, rest)
                else (false, skip_spaces tok)
            end) as [negative s].
  destruct (leading_digits s) as [| d ds]; [discriminate |].
  destruct (in_int_range _) eqn:Hr; [| discriminate].
  intros [= <-]. unfold in_int_range in Hr. unfold int_range. lia.
Qed.

Lemma parsed_values_range (args : list std_string) :
  Forall int_range (parsed_values args).
Proof.
  unfold parsed_values. induction args as [| tok args IH]; simpl; [constructor |].
  destruct (stoi tok) as [n | e] eqn:Hs; simpl; [| assumption].
  constructor; [now apply (stoi_ok_range tok) | assumption].
Qed.

Lemma parsed_values_length (args : list std_string) :
  (length (parsed_values args) <= length args)%nat.
Proof.
  unfold parsed_values. induction args as [| tok args IH]; simpl; [lia |].
  destruct (stoi tok); simpl; lia.
Qed.

(** X7. Every value [parse_args] returns is in the range of [int], there
    are at most [argc - 1] of them, and the text already on standard
    output is kept as it is: the new text is appended. *)
Theorem parse_args_invariants :
  forall (argv : list std_string) (out : ostream),
    Forall int_range (fst (parse_args argv out)) /\
    (length (fst (parse_args argv out)) <= length argv - 1)%nat /\
    firstn (length out) (snd (parse_args argv out)) = out.
Proof.
  intros argv out. rewrite parse_args_eval. cbn [fst snd].
  split; [apply parsed_values_range |]. split.
  - pose proof (parsed_values_length (skipn 1 argv)) as Hlen.
    rewrite length_skipn in Hlen. exact Hlen.
  - rewrite firstn_app, Nat.sub_diag, firstn_all. simpl. apply app_nil_r.
Qed.

Lemma warnings_nil_iff (args : list std_string) :
  warnings args = [] <-> Forall (fun tok => exists n, stoi tok = ok n) args.
Proof.
  unfold warnings. induction args as [| tok args IH]; simpl.
  - split; [constructor | reflexivity].
  - destruct (stoi tok) as [n | e] eqn:Hs; simpl.
    + rewrite IH. split.
      * intros Hall. constructor; [now exists n | assumption].
      * intros Hall. now inversion Hall.
    + split; [discriminate |].
      intros Hall. inversion Hall as [| ? ? [n Hn] _]. congruence.
Qed.

Lemma parsed_all_iff (args : list std_string) :
  length (parsed_values args) = length args <->
  Forall (fun tok => exists n, stoi tok = ok n) args.
Proof.
  induction args as [| tok args IH].
  - split; [constructor | reflexivity].
  - pose proof (parsed_values_length args) as Hlen.
    unfold parsed_values in *. simpl.
    destruct (stoi tok) as [n | e] eqn:Hs; simpl.
    + split.
      * intros Heq. constructor; [now exists n | apply IH; lia].
      * intros Hall. inversion Hall as [| ? ? _ Hrest]. apply IH in Hrest. lia.
    + split; [lia |].
      intros Hall. inversion Hall as [| ? ? [n Hn] _]. congruence.
Qed.

(** X8. [parse_args] prints nothing exactly when every token parses, and
    that is exactly when it returns as many values as there are tokens. *)
Theorem parse_args_silent_iff :
  forall (argv : list std_string) (out : ostream),
    (snd (parse_args argv out) = out <->
     Forall (fun tok => exists n, stoi tok = ok n) (skipn 1 argv)) /\
    (length (fst (parse_args argv out)) = length (skipn 1 argv) <->
     snd (parse_args argv out) = out).
Proof.
  intros argv out. rewrite parse_args_eval. cbn [fst snd].
  assert (Hout : out ++ warnings (skipn 1 argv) = out <->
                 warnings (skipn 1 argv) = []).
  { split; [| intros ->; apply app_nil_r].
    intros Heq. apply (app_inv_head out). now rewrite app_nil_r. }
  split.
  - now rewrite Hout, warnings_nil_iff.
  - now rewrite Hout, warnings_nil_iff, parsed_all_iff.
Qed.

(** ** main: the report *)

(** X9. When at least one token parses, [main] returns 0 and writes the
    warnings followed by the seven lines of the report, in this order:
    count (the number of parsed values), mean, min, max, the verdict of
    [is_strictly_increasing], the sum reduced to 32 bits, and the doubled
    sum reduced to 32 bits; the build option has no influence on it. *)
Theorem main_report :
  forall (VERBOSE_LOGS : bool) (show_double : double -> std_string)
         (argv : list std_string),
    parsed_values (skipn 1 argv) <> [] ->
    main VERBOSE_LOGS show_double argv =
    (0,
     warnings (skipn 1 argv)
       ++ lit "Count: "
       ++ show_Z (Z.of_nat (length (parsed_values (skipn 1 argv)))) ++ endl
       ++ lit "Mean:  "
       ++ show_double (mean (compute_stats (parsed_values (skipn 1 argv))))
       ++ endl
       ++ lit "Min:   "
       ++ show_double (min (compute_stats (parsed_values (skipn 1 argv))))
       ++ endl
       ++ lit "Max:   "
       ++ show_double (max (compute_stats (parsed_values (skipn 1 argv))))
       ++ endl
       ++ lit "Strictly increasing: "
       ++ (if is_strictly_increasing (parsed_values (skipn 1 argv))
           then lit "YES" else lit "NO") ++ endl
       ++ lit "Sum via add(): "
       ++ show_Z (wrap_int (exact_sum (parsed_values (skipn 1 argv)))) ++ endl
       ++ lit "Sum * 2 via multiply(): "
       ++ show_Z (wrap_int (2 * exact_sum (parsed_values (skipn 1 argv))))
       ++ endl).
Proof.
  intros VERBOSE_LOGS show_double argv Hsome.
  unfold main. rewrite parse_args_eval.
  set (vals := parsed_values (skipn 1 argv)) in *.
  assert (Hsum : fold_left add vals 0 = wrap_int (exact_sum vals))
    by (change 0 with (wrap_int 0) at 1; apply fold_add_wrap).
  assert (Hdouble : multiply (wrap_int (exact_sum vals)) 2 =
                    wrap_int (2 * exact_sum vals)).
  { unfold multiply.
    replace (wrap_int (exact_sum vals) * 2)
      with (wrap_int (exact_sum vals) + wrap_int (exact_sum vals)) by lia.
    rewrite wrap_int_add, Z.add_comm, wrap_int_add. f_equal. lia. }
  rewrite Hsum, Hdouble.
  destruct vals as [| x rest] eqn:Hvals; [congruence |].
  unfold put. cbn [app]. f_equal. now rewrite <- !app_assoc.
Qed.

Lemma main_report_witness :
  fst (main false (fun _ => lit "?") [lit "./demo"; lit "7"]) = 0.
Proof.
  rewrite (main_report false (fun _ => lit "?") [lit "./demo"; lit "7"]).
  - reflexivity.
  - discriminate.
Defined.

(** The statistics of a vector of [int] whose exact sum is a double. *)
Lemma stats_ordered (v : list Z) :
  v <> [] ->
  Forall int_range v ->
  Z.of_nat (length v) <= 2 ^ 22 ->
  double_le (min (compute_stats v)) (mean (compute_stats v)) = true /\
  double_le (mean (compute_stats v)) (max (compute_stats v)) = true.
Proof.
  intros Hne Hrange Hsize.
  pose proof (exact_sum_bounds v Hrange) as Hb. unfold INT_MIN, INT_MAX in Hb.
  assert (Hlen : 0 < Z.of_nat (length v))
    by (destruct v; [congruence | simpl length; lia]).
  destruct (smallest_spec v Hne) as [Hsin _].
  destruct (largest_spec v Hne) as [Hlin _].
  pose proof (proj1 (Forall_forall int_range v) Hrange) as Hall.
  pose proof (exact_sum_between v Hne) as [Hlo Hhi].
  rewrite compute_stats_eval by assumption. cbn [mean min max].
  rewrite wrap_llong_small by lia. unfold double_le. split.
  - apply quotient_lower; try lia. apply int_range_abs, Hall, Hsin.
  - apply quotient_upper; try lia. apply int_range_abs, Hall, Hlin.
Qed.

(** X10. For a command line of at most [2^22] arguments of which at
    least one parses, the statistics that [main] computes from the values
    [parse_args] returns satisfy [min <= mean <= max] and [min <= max]. *)
Theorem main_stats_ordered :
  forall (argv : list std_string) (out : ostream),
    Z.of_nat (length argv) <= 2 ^ 22 + 1 ->
    fst (parse_args argv out) <> [] ->
    double_le (min (compute_stats (fst (parse_args argv out))))
              (mean (compute_stats (fst (parse_args argv out)))) = true /\
    double_le (mean (compute_stats (fst (parse_args argv out))))
              (max (compute_stats (fst (parse_args argv out)))) = true.
Proof.
  intros argv out Hargc. rewrite parse_args_eval. cbn [fst]. intros Hsome.
  apply stats_ordered; [assumption | apply parsed_values_range |].
  pose proof (parsed_values_length (skipn 1 argv)) as Hlen.
  rewrite length_skipn in Hlen. lia.
Qed.

Lemma main_stats_ordered_witness :
  double_le (min (compute_stats [1; 2; 4])) (mean (compute_stats [1; 2; 4])) = true /\
  double_le (mean (compute_stats [1; 2; 4])) (max (compute_stats [1; 2; 4])) = true.
Proof.
  apply (main_stats_ordered
           [lit "./demo"; lit "1"; lit "2"; lit "three"; lit "4"] []).
  - simpl. lia.
  - discriminate.
Defined.

(** ** logger: one line per call *)

Lemma newlines_app (a b : std_string) :
  newlines (a ++ b) = (newlines a + newlines b)%nat.
Proof. unfold newlines. apply count_occ_app. Qed.

Lemma log_with_prefix_lines (prefix msg : std_string) (out : ostream) :
  newlines prefix = 0%nat ->
  newlines (log_with_prefix prefix msg out) =
  (newlines out + newlines msg + 1)%nat /\
  firstn (length out) (log_with_prefix prefix msg out) = out.
Proof.
  intros Hprefix. unfold log_with_prefix, put. split.
  - rewrite !newlines_app, Hprefix. unfold endl. cbn. lia.
  - rewrite <- !app_assoc, firstn_app, Nat.sub_diag, firstn_all. simpl.
    apply app_nil_r.
Qed.

(** X11. A call of [log_info], [log_warning] or [log_error] leaves the
    text already written untouched and, for a message without line
    break, adds exactly one line to it. *)
Theorem log_one_line :
  forall (VERBOSE_LOGS : bool) (msg : std_string) (out : ostream),
    newlines msg = 0%nat ->
    (newlines (log_info VERBOSE_LOGS msg out) = S (newlines out) /\
     firstn (length out) (log_info VERBOSE_LOGS msg out) = out) /\
    (newlines (log_warning msg out) = S (newlines out) /\
     firstn (length out) (log_warning msg out) = out) /\
    (newlines (log_error msg out) = S (newlines out) /\
     firstn (length out) (log_error msg out) = out).
Proof.
  intros VERBOSE_LOGS msg out Hmsg.
  assert (Hline : forall prefix,
             newlines prefix = 0%nat ->
             newlines (log_with_prefix prefix msg out) = S (newlines out) /\
             firstn (length out) (log_with_prefix prefix msg out) = out).
  { intros prefix Hprefix.
    destruct (log_with_prefix_lines prefix msg out Hprefix) as [Hcount Hkeep].
    split; [lia | exact Hkeep]. }
  unfold log_info, log_warning, log_error.
  split; [destruct VERBOSE_LOGS |]; [| | split]; apply Hline; reflexivity.
Qed.

Lemma log_one_line_witness :
  newlines (log_error (lit "disk full") (lit "earlier" ++ endl)) = 2%nat.
Proof.
  apply (proj1 (proj2 (proj2 (log_one_line false (lit "disk full")
                                (lit "earlier" ++ endl) eq_refl)))).
Defined.

(** ** string_utils: case conversion *)

Lemma upper_char_idem (c : ascii) :
  to_char (toupper (uchar (to_char (toupper (uchar c))))) =
  to_char (toupper (uchar c)).
Proof. destruct c as [[] [] [] [] [] [] [] []]; reflexivity. Qed.

Lemma lower_char_idem (c : ascii) :
  to_char (tolower (uchar (to_char (tolower (uchar c))))) =
  to_char (tolower (uchar c)).
Proof. destruct c as [[] [] [] [] [] [] [] []]; reflexivity. Qed.

Lemma tolower_toupper (c : ascii) :
  to_char (tolower (uchar (to_char (toupper (uchar c))))) =
  to_char (tolower (uchar c)).
Proof. destruct c as [[] [] [] [] [] [] [] []]; reflexivity. Qed.

(** X12. Case conversion keeps the length of the string, is idempotent,
    and the last conversion wins: [to_lower (to_upper s) = to_lower s]. *)
Theorem case_conversion_idempotent :
  forall s : std_string,
    length (to_upper s) = length s /\
    length (to_lower s) = length s /\
    to_upper (to_upper s) = to_upper s /\
    to_lower (to_lower s) = to_lower s /\
    to_lower (to_upper s) = to_lower s.
Proof.
  intros s. unfold to_upper, to_lower. rewrite !length_map, !map_map.
  repeat split; apply map_ext; intros c.
  - apply upper_char_idem.
  - apply lower_char_idem.
  - apply tolower_toupper.
Qed.

Lemma upper_char_not_lower (c : ascii) :
  islower (uchar (to_char (toupper (uchar c)))) = false.
Proof. destruct c as [[] [] [] [] [] [] [] []]; reflexivity. Qed.

Lemma upper_char_fixed (c : ascii) :
  to_char (toupper (uchar c)) = c <-> islower (uchar c) = false.
Proof.
  destruct c as [[] [] [] [] [] [] [] []]; vm_compute;
    split; (reflexivity || discriminate).
Qed.

Lemma lower_char_not_upper (c : ascii) :
  isupper (uchar (to_char (tolower (uchar c)))) = false.
Proof. destruct c as [[] [] [] [] [] [] [] []]; reflexivity. Qed.

Lemma lower_char_fixed (c : ascii) :
  to_char (tolower (uchar c)) = c <-> isupper (uchar c) = false.
Proof.
  destruct c as [[] [] [] [] [] [] [] []]; vm_compute;
    split; (reflexivity || discriminate).
Qed.

Lemma map_fixed_iff (f : ascii -> ascii) (p : ascii -> bool) (s : std_string) :
  (forall c, f c = c <-> p c = true) ->
  map f s = s <-> forallb p s = true.
Proof.
  intros Hf. induction s as [| c s IH]; simpl; [tauto |].
  rewrite andb_true_iff, <- IH, <- Hf.
  split; [intros [= Hc Hs]; now split | intros [-> ->]; reflexivity].
Qed.

Lemma forallb_map_all (f : ascii -> ascii) (p : ascii -> bool) (s : std_string) :
  (forall c, p (f c) = true) -> forallb p (map f s) = true.
Proof.
  intros Hp. induction s as [| c s IH]; simpl; [reflexivity |].
  now rewrite Hp, IH.
Qed.

(** X13. The result of [to_upper] has no lowercase ASCII letter and the
    strings [to_upper] leaves unchanged are exactly those without one;
    the same holds for [to_lower] and uppercase letters. *)
Theorem case_conversion_fixed_points :
  forall s : std_string,
    no_lower (to_upper s) = true /\
    (to_upper s = s <-> no_lower s = true) /\
    no_upper (to_lower s) = true /\
    (to_lower s = s <-> no_upper s = true).
Proof.
  intros s. unfold no_lower, no_upper, to_upper, to_lower.
  split; [| split; [| split]].
  - apply forallb_map_all. intros c. now rewrite upper_char_not_lower.
  - apply map_fixed_iff. intros c. rewrite negb_true_iff. apply upper_char_fixed.
  - apply forallb_map_all. intros c. now rewrite lower_char_not_upper.
  - apply map_fixed_iff. intros c. rewrite negb_true_iff. apply lower_char_fixed.
Qed.

(** ** string_utils: trim, case conversion and padding *)

Lemma drop_while_map (f : ascii -> ascii) (p : ascii -> bool) (s : std_string) :
  (forall c, p (f c) = p c) ->
  drop_while p (map f s) = map f (drop_while p s).
Proof.
  intros Hp. induction s as [| c s IH]; simpl; [reflexivity |].
  rewrite Hp. destruct (p c); [assumption | reflexivity].
Qed.

Lemma strip_map (f : ascii -> ascii) (s : std_string) :
  (forall c, is_trim_char (f c) = is_trim_char c) ->
  strip (map f s) = map f (strip s).
Proof.
  intros Hf. unfold strip.
  rewrite drop_while_map, <- map_rev, drop_while_map, map_rev by assumption.
  reflexivity.
Qed.

Lemma upper_char_trim (c : ascii) :
  is_trim_char (to_char (toupper (uchar c))) = is_trim_char c.
Proof. destruct c as [[] [] [] [] [] [] [] []]; reflexivity. Qed.

Lemma lower_char_trim (c : ascii) :
  is_trim_char (to_char (tolower (uchar c))) = is_trim_char c.
Proof. destruct c as [[] [] [] [] [] [] [] []]; reflexivity. Qed.

Lemma valid_string_map (f : ascii -> ascii) (s : std_string) :
  valid_string s -> valid_string (map f s).
Proof. unfold valid_string, size. now rewrite length_map. Qed.

(** X14. [trim] commutes with case conversion: trimming [to_upper s]
    gives the upper-cased result of trimming [s], and likewise for
    [to_lower]. *)
Theorem trim_case_commute :
  forall s : std_string,
    valid_string s ->
    trim (to_upper s) = (r <- trim s ;; ok (to_upper r)) /\
    trim (to_lower s) = (r <- trim s ;; ok (to_lower r)).
Proof.
  intros s Hvalid. rewrite (trim_strip s Hvalid). cbn [bind].
  unfold to_upper, to_lower. split.
  - rewrite trim_strip by now apply valid_string_map.
    now rewrite (strip_map _ s upper_char_trim).
  - rewrite trim_strip by now apply valid_string_map.
    now rewrite (strip_map _ s lower_char_trim).
Qed.

Lemma trim_case_commute_witness :
  trim (to_upper (lit "  ab c ")) = ok (lit "AB C").
Proof.
  apply (proj1 (trim_case_commute (lit "  ab c ")
                  ltac:(unfold valid_string; vm_compute; reflexivity))).
Defined.

Lemma strip_fixed (s : std_string) :
  (forall c t, s = c :: t -> is_trim_char c = false) ->
  (forall c t, s = t ++ [c] -> is_trim_char c = false) ->
  strip s = s.
Proof.
  intros Hfirst Hlast. unfold strip.
  rewrite (drop_while_fixed _ s Hfirst).
  rewrite drop_while_fixed; [apply rev_involutive |].
  intros c t Hrev. apply (Hlast c (rev t)).
  rewrite <- (rev_involutive s), Hrev. reflexivity.
Qed.

(** X15. [trim] returns its argument unchanged exactly when the argument
    neither starts nor ends with one of the four characters. *)
Theorem trim_fixed_points :
  forall s : std_string,
    valid_string s ->
    (trim s = ok s <->
     (forall c t, s = c :: t -> is_trim_char c = false) /\
     (forall c t, s = t ++ [c] -> is_trim_char c = false)).
Proof.
  intros s Hvalid. rewrite (trim_strip s Hvalid). split.
  - intros [= Heq]. split; intros c t Hs; rewrite <- Heq in Hs.
    + now apply (strip_first s c t).
    + now apply (strip_last s c t).
  - intros [Hfirst Hlast]. now rewrite strip_fixed.
Qed.

Lemma trim_fixed_points_witness :
  trim (lit "a b") = ok (lit "a b").
Proof.
  apply (proj2 (trim_fixed_points (lit "a b")
                  ltac:(unfold valid_string; vm_compute; reflexivity))).
  split.
  - intros c t [= <- _]. reflexivity.
  - intros c t Hs. destruct t as [| ? [| ? [| ? [| ? ?]]]]; try discriminate.
    injection Hs as _ _ <-. reflexivity.
Defined.

Lemma drop_while_app_all (p : ascii -> bool) (u v : std_string) :
  forallb p u = true -> drop_while p (u ++ v) = drop_while p v.
Proof.
  induction u as [| c u IH]; simpl; [reflexivity |].
  destruct (p c); simpl; [assumption | discriminate].
Qed.

Lemma drop_while_app_some (p : ascii -> bool) (u v : std_string) :
  forallb p u = false -> drop_while p (u ++ v) = drop_while p u ++ v.
Proof.
  induction u as [| c u IH]; simpl; [discriminate |].
  destruct (p c); simpl; [assumption | reflexivity].
Qed.

Lemma strip_padding (l s r : std_string) :
  forallb is_trim_char l = true -> forallb is_trim_char r = true ->
  strip (l ++ s ++ r) = strip s.
Proof.
  intros Hl Hr. unfold strip. rewrite drop_while_app_all by assumption.
  destruct (forallb is_trim_char s) eqn:Hs.
  - rewrite (drop_while_all _ s Hs).
    rewrite (drop_while_all _ (s ++ r)) by (now rewrite forallb_app, Hs, Hr).
    reflexivity.
  - rewrite drop_while_app_some by assumption.
    rewrite rev_app_distr.
    rewrite (drop_while_app_all _ (rev r)) by (now rewrite forallb_rev).
    reflexivity.
Qed.

(** X16. Padding does not change the result of [trim]: for [l] and [r]
    made of the four characters only, [trim (l ++ s ++ r) = trim s]. *)
Theorem trim_padding :
  forall l s r : std_string,
    forallb is_trim_char l = true ->
    forallb is_trim_char r = true ->
    valid_string (l ++ s ++ r) ->
    trim (l ++ s ++ r) = trim s.
Proof.
  intros l s r Hl Hr Hvalid.
  assert (Hs : valid_string s).
  { unfold valid_string in *. rewrite !size_app in Hvalid.
    pose proof (size_nonneg l). pose proof (size_nonneg r). lia. }
  rewrite !trim_strip by assumption. now rewrite strip_padding.
Qed.

Lemma trim_padding_witness :
  trim (lit "  " ++ lit "x y" ++ lit " ") = trim (lit "x y").
Proof.
  apply (trim_padding (lit "  ") (lit "x y") (lit " ")).
  - reflexivity.
  - reflexivity.
  - unfold valid_string. vm_compute. reflexivity.
Defined.

(** ** string_utils: starts_with and ends_with as prefix and suffix tests *)

Lemma starts_with_app_iff (s x : std_string) :
  starts_with s x = ok true <-> exists t, s = x ++ t.
Proof.
  rewrite starts_with_iff. split.
  - intros [_ Hfirst]. exists (skipn (length x) s).
    rewrite <- Hfirst at 1. symmetry. apply firstn_skipn.
  - intros [t ->]. rewrite length_app. split; [lia |].
    rewrite firstn_app, Nat.sub_diag, firstn_all. simpl. apply app_nil_r.
Qed.

Lemma ends_with_app_iff (s x : std_string) :
  valid_string s ->
  ends_with s x = ok true <-> exists t, s = t ++ x.
Proof.
  intros Hvalid. rewrite ends_with_iff by assumption. split.
  - intros [_ Hlast]. exists (firstn (length s - length x) s).
    rewrite <- Hlast at 2. symmetry. apply firstn_skipn.
  - intros [t ->]. rewrite length_app. split; [lia |].
    replace (length t + length x - length x)%nat with (length t) by lia.
    rewrite skipn_app, skipn_all, Nat.sub_diag. reflexivity.
Qed.

(** X17. [starts_with s x] is true exactly when [s] is [x] followed by
    some string, and [ends_with s x] exactly when [s] is some string
    followed by [x]. *)
Theorem starts_ends_with_concat :
  forall s x : std_string,
    valid_string s ->
    (starts_with s x = ok true <-> exists t, s = x ++ t) /\
    (ends_with s x = ok true <-> exists t, s = t ++ x).
Proof.
  intros s x Hvalid. split.
  - apply starts_with_app_iff.
  - now apply ends_with_app_iff.
Qed.

Lemma starts_ends_with_concat_witness :
  starts_with (lit "stats.cpp") (lit "stats") = ok true.
Proof.
  apply (proj1 (starts_ends_with_concat (lit "stats.cpp") (lit "stats")
                  ltac:(unfold valid_string; vm_compute; reflexivity))).
  exists (lit ".cpp"). reflexivity.
Defined.

(** X18. [starts_with] is a partial order on strings: every string
    starts with itself, a prefix of a prefix is a prefix, and two strings
    that start with one another are equal. *)
Theorem starts_with_order :
  (forall s : std_string, starts_with s s = ok true) /\
  (forall a b c : std_string,
      starts_with b a = ok true -> starts_with c b = ok true ->
      starts_with c a = ok true) /\
  (forall a b : std_string,
      starts_with a b = ok true -> starts_with b a = ok true -> a = b).
Proof.
  split; [| split].
  - intros s. apply starts_with_app_iff. exists []. now rewrite app_nil_r.
  - intros a b c Hba Hcb. apply starts_with_app_iff in Hba as [t ->].
    apply starts_with_app_iff in Hcb as [u ->].
    apply starts_with_app_iff. exists (t ++ u). now rewrite app_assoc.
  - intros a b Hab Hba. apply starts_with_iff in Hab as [Hlen Hfirst].
    apply starts_with_iff in Hba as [Hlen' _].
    rewrite <- Hfirst. symmetry. apply firstn_all2. lia.
Qed.

Lemma starts_with_order_witness :
  starts_with (lit "abc") (lit "a") = ok true.
Proof.
  apply (proj1 (proj2 starts_with_order) (lit "a") (lit "ab") (lit "abc"));
    reflexivity.
Defined.

Lemma compare_strings_eqb (a b : std_string) :
  (compare_strings a b =? 0) = true <-> a = b.
Proof. rewrite Z.eqb_eq. apply compare_strings_eq. Qed.

(** X19. [ends_with] is [starts_with] on the reversed strings. *)
Theorem ends_with_reverse :
  forall s x : std_string,
    valid_string s ->
    ends_with s x = starts_with (rev s) (rev x).
Proof.
  intros s x Hvalid.
  rewrite ends_with_eval by assumption. rewrite starts_with_eval.
  unfold size. rewrite !length_rev. do 2 f_equal.
  apply eq_true_iff_eq. rewrite !compare_strings_eqb.
  rewrite firstn_rev. split.
  - intros Heq. now rewrite Heq.
  - intros Hrev. apply (f_equal (@rev ascii)) in Hrev.
    now rewrite !rev_involutive in Hrev.
Qed.

Lemma ends_with_reverse_witness :
  ends_with (lit "main.cpp") (lit ".cpp") =
  starts_with (lit "ppc.niam") (lit "ppc.").
Proof.
  apply (ends_with_reverse (lit "main.cpp") (lit ".cpp")).
  unfold valid_string. vm_compute. reflexivity.
Defined.

(** X20. Case conversion keeps prefixes and suffixes: when [s] starts
    (ends) with [x], [to_upper s] starts (ends) with [to_upper x], and
    likewise for [to_lower]. *)
Theorem starts_ends_with_case :
  forall s x : std_string,
    valid_string s ->
    (starts_with s x = ok true ->
     starts_with (to_upper s) (to_upper x) = ok true /\
     starts_with (to_lower s) (to_lower x) = ok true) /\
    (ends_with s x = ok true ->
     ends_with (to_upper s) (to_upper x) = ok true /\
     ends_with (to_lower s) (to_lower x) = ok true).
Proof.
  intros s x Hvalid. unfold to_upper, to_lower. split.
  - intros Hsw. apply starts_with_app_iff in Hsw as [t ->].
    split; apply starts_with_app_iff; eexists; apply map_app.
  - intros Hew. apply (ends_with_app_iff s x Hvalid) in Hew as [t Hs].
    subst s.
    split; (apply ends_with_app_iff; [now apply valid_string_map |]);
      eexists; apply map_app.
Qed.

Lemma starts_ends_with_case_witness :
  starts_with (to_upper (lit "stats.cpp")) (to_upper (lit "stats")) = ok true.
Proof.
  apply (proj1 (starts_ends_with_case (lit "stats.cpp") (lit "stats")
                  ltac:(unfold valid_string; vm_compute; reflexivity))).
  reflexivity.
Defined.
